(** * draftfast: the lineup optimizer as a constraint compiler

    A shallow embedding of [draftfast/optimizer.py].  The [Optimizer] class
    turns a player pool, a rule set and user settings into a mixed-integer
    program handed to an external solver.  The solver itself is not part of
    the repository: the embedding records, in creation order, the variables
    and constraints the optimizer asks the solver to create, which is the
    observable result of constraint compilation.

    Player records are Python objects shared with the caller and mutated by
    the constructor, so they live in an explicit heap indexed by object
    identity, and the pool is a list of references into that heap. *)

From Stdlib Require Import QArith.
From stdpp Require Import base option list gmap strings.

Open Scope string_scope.
Open Scope list_scope.
Open Scope Z_scope.

(** ** Python values and truthiness *)

(** An optional integer setting: [None] or an [int].  Python's [if x:] is
    false for [None] and for [0]. *)
Definition truthy (x : option Z) : bool :=
  match x with
  | Some z => negb (z =? 0)
  | None => false
  end.

(** A position collection of the rule set: [None] or a list.  Both [None]
    and the empty list are falsy. *)
Definition truthy_list {A} (x : option (list A)) : bool :=
  match x with
  | Some (_ :: _) => true
  | _ => false
  end.

(** Strings are falsy exactly when empty. *)
Definition truthy_str (s : string) : bool :=
  match s with
  | EmptyString => false
  | _ => true
  end.

(** [x in l] on a list of strings. *)
Definition py_in (x : string) (l : list string) : bool := bool_decide (x ∈ l).

(** ** Data model *)

(** Object identity of a player record. *)
Definition loc := nat.

Record Player := mkPlayer {
  name : string;
  solver_id : string;
  team : string;
  pos : string;
  nba_general_position : string;
  cost : Z;
  proj : Q;
  lock : bool;
  ban : bool;
  multi_position : bool;
  captain : bool;
  (* the match-up lookup method of the player class, which is not part of
     this file: the player's answer for each team name *)
  is_opposing_team_in_match_up : string → bool;
}.

Definition with_lock (b : bool) (p : Player) : Player :=
  mkPlayer (name p) (solver_id p) (team p) (pos p) (nba_general_position p)
    (cost p) (proj p) b (ban p) (multi_position p) (captain p)
    (is_opposing_team_in_match_up p).

Definition with_ban (b : bool) (p : Player) : Player :=
  mkPlayer (name p) (solver_id p) (team p) (pos p) (nba_general_position p)
    (cost p) (proj p) (lock p) b (multi_position p) (captain p)
    (is_opposing_team_in_match_up p).

Record RuleSet := mkRuleSet {
  rs_salary_min : Z;
  rs_salary_max : Z;
  rs_roster_size : Z;
  rs_position_limits : list (string * Z * Z);
  rs_general_position_limits : list (string * Z * Z);
  rs_offensive_positions : option (list string);
  rs_defensive_positions : option (list string);
  rs_game_type : string;
}.

Record Stack := mkStack {
  stack_team : string;
  stack_count : Z;
}.

(** A previously produced lineup; [sorted_players] yields its player
    objects. *)
Record Roster := mkRoster {
  sorted_players : list loc;
}.

Record OptimizerSettings := mkSettings {
  stacks : option (list Stack);
  settings_existing_rosters : option (list Roster);
  force_combo : bool;
  combo_allow_te : bool;
  uniques : option Z;
  min_teams : Z;
  no_offense_against_defense : bool;
  no_defense_against_captain : bool;
}.

(** Modelled from the spec: the defaults of [OptimizerSettings()], whose
    class is declared in [draftfast/settings.py]: no stacking, no combo
    rule, no minimum teams, no anti-correlation, no uniques floor. *)
Definition OptimizerSettings_default : OptimizerSettings :=
  mkSettings None None false false None 0 false false.

Record GroupConstraint := mkGroup {
  gc_players : list string;
  gc_exact : option Z;
  gc_lb : option Z;
  gc_ub : option Z;
}.

(** The lineup constraints object: iterating it yields the group
    constraints, and it answers lock and ban lookups by player name. *)
Record LineupConstraints := mkLineupConstraints {
  lc_groups : list GroupConstraint;
  is_locked : string → bool;
  is_banned : string → bool;
}.

(** The exposure dictionary, with its two keys. *)
Record ExposureDct := mkExposure {
  exp_banned : list string;
  exp_locked : list string;
}.

(** ** The solver, as the optimizer drives it *)

Record MPVariable := mkVar {
  var_lb : Z;
  var_ub : Z;
  var_name : string;
}.

(** Linear expressions built with [Sum], [-] and integer constants over
    variables; a variable is named by its creation index in the solver. *)
Inductive LinearExpr :=
| LVar (v : nat)
| LConst (z : Z)
| LSum (vs : list nat)
| LSub (a b : LinearExpr).

(** A constraint of the solver: either a row created by
    [solver.Constraint(...)], holding the positional arguments of the call
    and the coefficients set afterwards, or a comparison passed to
    [solver.Add]. *)
Inductive MPConstraint :=
| Row (bounds : list (option Z)) (coeffs : gmap nat Z)
| Ge (l r : LinearExpr)
| Le (l r : LinearExpr).

Record Solver := mkSolver {
  solver_vars : list MPVariable;
  solver_constraints : list MPConstraint;
  objective_coeffs : gmap nat Q;
  maximization : bool;
}.

(** [pywraplp.Solver(...)]: a solver with nothing in it. *)
Definition Solver_new : Solver := mkSolver [] [] ∅ false.

(** ** State and exceptions *)

Inductive Exn :=
| PlayerBanAndLockException (player_name : string)
| InvalidBoundsException
| KeyError (key : string)
| IndexError
| TypeError.

Inductive Result (A : Type) :=
| Ok (a : A)
| Raised (e : Exn).
Arguments Ok {A} a.
Arguments Raised {A} e.

Record State := mkState {
  heap : loc → Player;
  solver : Solver;
}.

Definition M (A : Type) : Type := State → Result A * State.

Definition ret {A} (a : A) : M A := λ st, (Ok a, st).

Definition bind {A B} (m : M A) (k : A → M B) : M B :=
  λ st, match m st with
        | (Ok a, st') => k a st'
        | (Raised e, st') => (Raised e, st')
        end.

Definition raise {A} (e : Exn) : M A := λ st, (Raised e, st).

Declare Scope opt_scope.
Delimit Scope opt_scope with opt.
Notation "x <- m ;; k" := (bind m (λ x, k))
  (at level 100, m at next level, right associativity) : opt_scope.
Notation "m ;;; k" := (bind m (λ _, k))
  (at level 100, right associativity) : opt_scope.
Open Scope opt_scope.

(** [for x in l: body x] *)
Fixpoint for_each {A} (l : list A) (body : A → M unit) : M unit :=
  match l with
  | [] => ret tt
  | x :: l' => body x ;;; for_each l' body
  end.

(** A [for] loop that threads local variables of type [S]. *)
Fixpoint for_fold {A S} (l : list A) (body : S → A → M S) (s : S) : M S :=
  match l with
  | [] => ret s
  | x :: l' => s' <- body s x ;; for_fold l' body s'
  end.

(** A list comprehension [[f x for x in l if cond x]] whose condition may
    raise. *)
Fixpoint comprehension {A B} (l : list A) (cond : A → M bool) (f : A → M B)
  : M (list B) :=
  match l with
  | [] => ret []
  | x :: l' =>
      c <- cond x ;;
      if c then (y <- f x ;; ys <- comprehension l' cond f ;; ret (y :: ys))
      else comprehension l' cond f
  end.

(** *** Heap access *)

Definition read (l : loc) : M Player := λ st, (Ok (heap st l), st).

Definition write (l : loc) (f : Player → Player) : M unit :=
  λ st, (Ok tt,
         mkState (λ l', if decide (l' = l) then f (heap st l') else heap st l')
                 (solver st)).

(** *** Solver calls *)

Definition modify_solver (f : Solver → Solver) : M unit :=
  λ st, (Ok tt, mkState (heap st) (f (solver st))).

Definition get_solver : M Solver := λ st, (Ok (solver st), st).

(** [solver.IntVar(lb, ub, name)]; the result is the new variable. *)
Definition IntVar (lb ub : Z) (nm : string) : M nat :=
  s <- get_solver ;;
  modify_solver (λ s, mkSolver (solver_vars s ++ [mkVar lb ub nm])%list
                               (solver_constraints s) (objective_coeffs s)
                               (maximization s)) ;;;
  ret (length (solver_vars s)).

Definition push_constraint (c : MPConstraint) : M nat :=
  s <- get_solver ;;
  modify_solver (λ s, mkSolver (solver_vars s) (solver_constraints s ++ [c])%list
                               (objective_coeffs s) (maximization s)) ;;;
  ret (length (solver_constraints s)).

(** [solver.Constraint] on its positional arguments; the result is the handle of the new row. *)
Definition Constraint (args : list (option Z)) : M nat :=
  push_constraint (Row args ∅).

Definition set_coeff (v : nat) (c : Z) (k : MPConstraint) : MPConstraint :=
  match k with
  | Row b cs => Row b (<[v := c]> cs)
  | _ => k
  end.

(** [constraint.SetCoefficient(var, c)] on the row with handle [h]. *)
Definition SetCoefficient (h : nat) (v : nat) (c : Z) : M unit :=
  modify_solver (λ s, mkSolver (solver_vars s)
                               (alter (set_coeff v c) h (solver_constraints s))
                               (objective_coeffs s) (maximization s)).

(** [solver.Add(comparison)] *)
Definition Add (c : MPConstraint) : M unit :=
  push_constraint c ;;; ret tt.

Definition Objective_SetMaximization : M unit :=
  modify_solver (λ s, mkSolver (solver_vars s) (solver_constraints s)
                               (objective_coeffs s) true).

Definition Objective_SetCoefficient (v : nat) (c : Q) : M unit :=
  modify_solver (λ s, mkSolver (solver_vars s) (solver_constraints s)
                               (<[v := c]> (objective_coeffs s))
                               (maximization s)).

(** ** The optimizer object *)

Record Optimizer := mkOptimizer {
  players : list loc;
  enumerated_players : list (nat * loc);
  existing_rosters : list Roster;
  salary_min : Z;
  salary_max : Z;
  roster_size : Z;
  position_limits : list (string * Z * Z);
  offensive_positions : option (list string);
  defensive_positions : option (list string);
  general_position_limits : list (string * Z * Z);
  showdown : bool;
  settings : OptimizerSettings;
  lineup_constraints : LineupConstraints;
  banned_for_exposure : list string;
  locked_for_exposure : list string;
  player_to_idx_map : gmap string nat;
  name_to_idx_map : gmap string nat;
  variables : list nat;
  teams : gset string;
}.

(** [enumerate(l, start=k)] as a list *)
Fixpoint enumerate_from {A} (k : nat) (l : list A) : list (nat * A) :=
  match l with
  | [] => []
  | x :: l' => (k, x) :: enumerate_from (S k) l'
  end.

(** [list(enumerate(players))] *)
Definition enumerate {A} (l : list A) : list (nat * A) := enumerate_from 0 l.

(** [self.variables[i]] *)
Definition variable (self : Optimizer) (i : nat) : M nat :=
  match variables self !! i with
  | Some v => ret v
  | None => raise IndexError
  end.

(** [self.name_to_idx_map[name]] *)
Definition name_idx (self : Optimizer) (nm : string) : M nat :=
  match name_to_idx_map self !! nm with
  | Some i => ret i
  | None => raise (KeyError nm)
  end.

(** [x in None] raises; [x in l] is membership. *)
Definition py_in_opt (x : string) (o : option (list string)) : M bool :=
  match o with
  | Some l => ret (py_in x l)
  | None => raise TypeError
  end.

(** [[p.team for p in players]] *)
Definition player_teams (ps : list loc) : M (list string) :=
  comprehension ps (λ _, ret true) (λ l, p <- read l ;; ret (team p)).

(** *** Eligibility *)

Definition _is_locked (lc : LineupConstraints) (locked : list string)
    (p : Player) : bool :=
  is_locked lc (name p) || py_in (name p) locked || lock p.

Definition _is_banned (lc : LineupConstraints) (banned : list string)
    (p : Player) : bool :=
  is_banned lc (name p) || py_in (name p) banned || ban p.

(** *** Construction *)

(** The local state of the constructor's loop: [self.variables],
    [self.player_to_idx_map] and [self.name_to_idx_map]. *)
Definition Registry : Type := list nat * gmap string nat * gmap string nat.

(** The body of the loop over [self.enumerated_players] in [__init__]. *)
Definition init_player (lc : LineupConstraints) (locked banned : list string)
    (reg : Registry) (ip : nat * loc) : M Registry :=
  let '(vars, p2i, n2i) := reg in
  let '(idx, l) := ip in
  p <- read l ;;
  v <- IntVar 0 1 (solver_id p) ;;
  let vars := (vars ++ [v])%list in
  let p2i := <[solver_id p := idx]> p2i in
  let n2i := <[name p := idx]> n2i in
  p <- read l ;;
  (if _is_locked lc locked p then write l (with_lock true) else ret tt) ;;;
  p <- read l ;;
  (if _is_banned lc banned p then write l (with_ban true) else ret tt) ;;;
  p <- read l ;;
  if lock p && ban p then raise (PlayerBanAndLockException (name p))
  else ret (vars, p2i, n2i).

(** [Optimizer.__init__] *)
Definition init (players : list loc) (rule_set : RuleSet)
    (settings : option OptimizerSettings)
    (lineup_constraints : LineupConstraints)
    (exposure_dct : option ExposureDct) : M Optimizer :=
  let settings := default OptimizerSettings_default settings in
  modify_solver (λ _, Solver_new) ;;;
  let enumerated := enumerate players in
  let rosters :=
    if truthy_list (settings_existing_rosters settings)
    then default [] (settings_existing_rosters settings) else [] in
  let banned := from_option exp_banned [] exposure_dct in
  let locked := from_option exp_locked [] exposure_dct in
  reg <- for_fold enumerated (init_player lineup_constraints locked banned)
           ([], ∅, ∅) ;;
  let '(vars, p2i, n2i) := reg in
  ts <- player_teams players ;;
  Objective_SetMaximization ;;;
  ret (mkOptimizer players enumerated rosters
         (rs_salary_min rule_set) (rs_salary_max rule_set)
         (rs_roster_size rule_set) (rs_position_limits rule_set)
         (rs_offensive_positions rule_set) (rs_defensive_positions rule_set)
         (rs_general_position_limits rule_set)
         (String.eqb (rs_game_type rule_set) "showdown")
         settings lineup_constraints banned locked p2i n2i vars
         (list_to_set ts)).

(** *** Constraint families *)

(** The body of the loop in [_set_player_constraints]; the local dictionary
    [multi_constraints] maps a player name to the row shared under it. *)
Definition player_constraint (self : Optimizer)
    (multi_constraints : gmap string nat) (ip : nat * loc)
  : M (gmap string nat) :=
  let '(i, l) := ip in
  p <- read l ;;
  let lb := if lock p then 1 else 0 in
  let ub := if ban p then 0 else 1 in
  if ub <? lb then raise InvalidBoundsException else
  mc <- (if multi_position p || (showdown self && captain p) then
           mc <- (match multi_constraints !! name p with
                  | None =>
                      c <- Constraint [Some lb; Some ub] ;;
                      ret (<[name p := c]> multi_constraints)
                  | Some _ => ret multi_constraints
                  end) ;;
           match mc !! name p with
           | Some c => ret (mc, c)
           | None => raise (KeyError (name p))
           end
         else
           c <- Constraint [Some lb; Some ub] ;;
           ret (multi_constraints, c)) ;;
  v <- variable self i ;;
  SetCoefficient mc.2 v 1 ;;;
  ret mc.1.

Definition _set_player_constraints (self : Optimizer) : M unit :=
  for_fold (enumerated_players self) (player_constraint self) ∅ ;;;
  ret tt.

Definition _set_player_group_constraints (self : Optimizer) : M unit :=
  for_each (lc_groups (lineup_constraints self))
    (λ group_constraint,
       let '(lb, ub) :=
         if truthy (gc_exact group_constraint)
         then (gc_exact group_constraint, gc_exact group_constraint)
         else (gc_lb group_constraint, gc_ub group_constraint) in
       constraint <- Constraint [lb; ub] ;;
       for_each (gc_players group_constraint)
         (λ nm,
            idx <- name_idx self nm ;;
            v <- variable self idx ;;
            SetCoefficient constraint v 1)).

Definition _optimize_on_projected_points (self : Optimizer) : M unit :=
  for_each (enumerated_players self)
    (λ '(i, l),
       v <- variable self i ;;
       player <- read l ;;
       Objective_SetCoefficient v (proj player)).

Definition _set_salary_range (self : Optimizer) : M unit :=
  salary_cap <- Constraint [Some (salary_min self); Some (salary_max self)] ;;
  for_each (enumerated_players self)
    (λ '(i, l),
       v <- variable self i ;;
       player <- read l ;;
       SetCoefficient salary_cap v (cost player)).

Definition _set_roster_size (self : Optimizer) : M unit :=
  size_cap <- Constraint [Some (roster_size self); Some (roster_size self)] ;;
  for_each (variables self) (λ v, SetCoefficient size_cap v 1).

Definition _set_stack (self : Optimizer) : M unit :=
  (* [self.settings] is an object, never [None] after construction *)
  let stacks := stacks (settings self) in
  if truthy_list stacks then
    for_each (default [] stacks)
      (λ stack,
         stack_cap <- Constraint [Some (stack_count stack);
                                  Some (stack_count stack)] ;;
         for_each (enumerated_players self)
           (λ '(i, l),
              player <- read l ;;
              if String.eqb (stack_team stack) (team player) then
                v <- variable self i ;;
                SetCoefficient stack_cap v 1
              else ret tt))
  else ret tt.

Definition _set_combo (self : Optimizer) : M unit :=
  let combo := force_combo (settings self) in
  let combo_allow_te := combo_allow_te (settings self) in
  let combo_skill_type :=
    (["WR"] ++ (if combo_allow_te then ["TE"] else []))%list in
  if combo then
    ts <- player_teams (players self) ;;
    let teams : gset string := list_to_set ts in
    for_each (elements teams)
      (λ team_,
         skillplayers_on_team <-
           comprehension (enumerated_players self)
             (λ '(i, l), p <- read l ;;
                ret (String.eqb (team p) team_ && py_in (pos p) combo_skill_type))
             (λ '(i, l), variable self i) ;;
         qbs_on_team <-
           comprehension (enumerated_players self)
             (λ '(i, l), p <- read l ;;
                ret (String.eqb (team p) team_ && String.eqb (pos p) "QB"))
             (λ '(i, l), variable self i) ;;
         Add (Ge (LSum skillplayers_on_team) (LSum qbs_on_team)))
  else ret tt.

Definition _set_no_opp_defense (self : Optimizer) : M unit :=
  let offensive_pos := offensive_positions self in
  let defensive_pos := defensive_positions self in
  let use_classic :=
    no_offense_against_defense (settings self) && negb (showdown self) in
  let use_showdown :=
    no_defense_against_captain (settings self) && showdown self in
  if truthy_list offensive_pos && truthy_list defensive_pos && use_classic
     || use_showdown then
    for_each (elements (teams self))
      (λ team_,
         offensive_against <-
           comprehension (enumerated_players self)
             (λ '(i, l), p <- read l ;;
                in_off <- py_in_opt (pos p) offensive_pos ;;
                ret (in_off && is_opposing_team_in_match_up p team_
                     && use_showdown && captain p))
             (λ '(i, l), variable self i) ;;
         defensive <-
           comprehension (enumerated_players self)
             (λ '(i, l), p <- read l ;;
                if String.eqb (team p) team_
                then py_in_opt (pos p) defensive_pos
                else ret false)
             (λ '(i, l), variable self i) ;;
         for_each offensive_against
           (λ p, for_each defensive
                   (λ d, Add (Le (LVar p) (LSub (LConst 1) (LVar d))))))
  else ret tt.

Definition _set_positions (self : Optimizer) : M unit :=
  for_each (position_limits self)
    (λ '(position, min_limit, max_limit),
       position_cap <- Constraint [Some min_limit; Some max_limit] ;;
       for_each (enumerated_players self)
         (λ '(i, l),
            player <- read l ;;
            if String.eqb position (pos player) then
              v <- variable self i ;;
              SetCoefficient position_cap v 1
            else ret tt)).

Definition _set_general_positions (self : Optimizer) : M unit :=
  for_each (general_position_limits self)
    (λ '(general_position, min_limit, max_limit),
       position_cap <- Constraint [Some min_limit; Some max_limit] ;;
       for_each (enumerated_players self)
         (λ '(i, l),
            player <- read l ;;
            if String.eqb general_position (nba_general_position player) then
              v <- variable self i ;;
              SetCoefficient position_cap v 1
            else ret tt)).

Definition _set_no_duplicate_lineups (self : Optimizer) : M unit :=
  for_each (existing_rosters self)
    (λ roster,
       let max_repeats := roster_size self - 1 in
       let max_repeats :=
         if truthy (uniques (settings self))
         then Z.max (roster_size self - default 0 (uniques (settings self))) 1
         else max_repeats in
       repeated_players <- Constraint [Some 0; Some max_repeats] ;;
       for_each (sorted_players roster)
         (λ l,
            player <- read l ;;
            match player_to_idx_map self !! solver_id player with
            | Some i =>
                v <- variable self i ;;
                SetCoefficient repeated_players v 1
            | None => ret tt
            end)).

Definition _set_min_teams (self : Optimizer) : M unit :=
  teams_ <- for_fold (elements (teams self))
    (λ (teams_ : list nat) team_,
       if truthy_str team_ then
         constraint <- IntVar 0 1 team_ ;;
         let teams_ := (teams_ ++ [constraint])%list in
         players_on_team <-
           comprehension (enumerated_players self)
             (λ '(i, l), p <- read l ;; ret (String.eqb (team p) team_))
             (λ '(i, l), variable self i) ;;
         Add (Le (LVar constraint) (LSum players_on_team)) ;;;
         ret teams_
       else ret teams_)
    [] ;;
  if (0 <? length teams_)%nat then
    Add (Ge (LSum teams_) (LConst (min_teams (settings self))))
  else ret tt.

Definition _set_single_captain (self : Optimizer) : M unit :=
  captain_constraint <- Constraint [Some 1] ;;
  for_each (enumerated_players self)
    (λ '(i, l),
       p <- read l ;;
       if captain p then
         v <- variable self i ;;
         SetCoefficient captain_constraint v 1
       else ret tt).

(** *** Solving *)

(** The statuses the solver reports. *)
Inductive ResultStatus :=
| OPTIMAL | FEASIBLE | INFEASIBLE | UNBOUNDED | ABNORMAL | NOT_SOLVED.

Definition is_optimal (r : ResultStatus) : bool :=
  match r with OPTIMAL => true | _ => false end.

(** Everything [solve] does before it calls the solver. *)
Definition build_model (self : Optimizer) : M unit :=
  _set_player_constraints self ;;;
  _set_player_group_constraints self ;;;
  _optimize_on_projected_points self ;;;
  _set_salary_range self ;;;
  _set_roster_size self ;;;
  _set_positions self ;;;
  _set_general_positions self ;;;
  _set_stack self ;;;
  _set_combo self ;;;
  _set_no_duplicate_lineups self ;;;
  _set_min_teams self ;;;
  (if showdown self then _set_single_captain self else ret tt) ;;;
  _set_no_opp_defense self.

(** [Optimizer.solve]; [Solve] stands for the external solver's answer on
    the model it was given. *)
Definition solve (Solve : Solver → ResultStatus) (self : Optimizer) : M bool :=
  build_model self ;;;
  s <- get_solver ;;
  ret (is_optimal (Solve s)).

(** * Vocabulary of the statements *)

(** ** Solver updates *)

Definition add_var (v : MPVariable) (s : Solver) : Solver :=
  mkSolver (solver_vars s ++ [v]) (solver_constraints s)
           (objective_coeffs s) (maximization s).

Definition add_constraints (cs : list MPConstraint) (s : Solver) : Solver :=
  mkSolver (solver_vars s) (solver_constraints s ++ cs)
           (objective_coeffs s) (maximization s).

Definition with_constraints (cs : list MPConstraint) (s : Solver) : Solver :=
  mkSolver (solver_vars s) cs (objective_coeffs s) (maximization s).

(** The outcome is a value, not an exception. *)
Definition succeeded {A} (r : Result A) : Prop :=
  match r with Ok _ => True | Raised _ => False end.

(** A computation that only looks at the state. *)
Definition observer {A} (m : M A) : Prop := ∀ st, (m st).2 = st.

(** ** Eligibility resolution *)

(** What one turn of the constructor's loop leaves in a player record: the
    lock flag raised when the player resolves to locked, the ban flag raised
    when the player resolves to banned. *)
Definition resolve (lc : LineupConstraints) (locked banned : list string)
    (p : Player) : Player :=
  let p1 := if _is_locked lc locked p then with_lock true p else p in
  if _is_banned lc banned p1 then with_ban true p1 else p1.

(** Resolved lock and resolved ban both hold. *)
Definition conflict (lc : LineupConstraints) (locked banned : list string)
    (p : Player) : bool :=
  _is_locked lc locked p && _is_banned lc banned p.

(** The exposure lists the constructor reads off its last argument. *)
Definition exposure_locked (e : option ExposureDct) : list string :=
  from_option exp_locked [] e.

Definition exposure_banned (e : option ExposureDct) : list string :=
  from_option exp_banned [] e.

(** Two records that differ at most in their lock and ban flags. *)
Definition same_but_flags (p q : Player) : Prop :=
  name p = name q ∧ solver_id p = solver_id q ∧ team p = team q ∧
  pos p = pos q ∧ nba_general_position p = nba_general_position q ∧
  cost p = cost q ∧ proj p = proj q ∧
  multi_position p = multi_position q ∧ captain p = captain q ∧
  is_opposing_team_in_match_up p = is_opposing_team_in_match_up q.

(** ** Well-formed optimizers *)

(** What the constructor establishes about the registry: the pool is
    enumerated from 0, variable [i] belongs to player [i], and both lookup
    tables point into the pool. *)
Definition wf (self : Optimizer) : Prop :=
  enumerated_players self = enumerate (players self) ∧
  variables self = seq 0 (length (players self)) ∧
  map_Forall (λ _ i, (i < length (players self))%nat) (player_to_idx_map self) ∧
  map_Forall (λ _ i, (i < length (players self))%nat) (name_to_idx_map self).

(** A computation that leaves every player record as it found it. *)
Definition keeps_heap {A} (m : M A) : Prop := ∀ st, heap (m st).2 = heap st.

(** ** Per-player bounds *)

Definition lower_bound (p : Player) : Z := if lock p then 1 else 0.

Definition upper_bound (p : Player) : Z := if ban p then 0 else 1.

(** The players [_set_player_constraints] attaches to a row keyed by
    name. *)
Definition shares_constraint (self : Optimizer) (p : Player) : bool :=
  multi_position p || (showdown self && captain p).

(** The row a player gets when it is the first on its constraint. *)
Definition bound_row (i : nat) (p : Player) : MPConstraint :=
  Row [Some (lower_bound p); Some (upper_bound p)] {[ i := 1 ]}.

(** The effect of one player on the dictionary of shared rows and on the
    constraints of the solver, when its bounds are consistent. *)
Definition bound_step (self : Optimizer) (h : loc → Player)
    (acc : gmap string nat * list MPConstraint) (ip : nat * loc)
  : gmap string nat * list MPConstraint :=
  let p := h ip.2 in
  if shares_constraint self p then
    match acc.1 !! name p with
    | None => (<[name p := length acc.2]> acc.1, acc.2 ++ [bound_row ip.1 p])
    | Some c => (acc.1, alter (set_coeff ip.1 1) c acc.2)
    end
  else (acc.1, acc.2 ++ [bound_row ip.1 p]).

(** [x] is the first player of [done] that shares a row under [nm]. *)
Definition first_sharing (self : Optimizer) (h : loc → Player) (nm : string)
    (done : list (nat * loc)) (x : nat * loc) : Prop :=
  ∃ pre post,
    done = pre ++ x :: post ∧
    shares_constraint self (h x.2) = true ∧ name (h x.2) = nm ∧
    ∀ y, y ∈ pre → ¬ (shares_constraint self (h y.2) = true ∧ name (h y.2) = nm).

(** What the loop of [_set_player_constraints] has established once the
    players [done] are processed, on the dictionary and constraints [acc]:
    a row registered under a name carries the bounds of the first sharing
    player of that name and coefficient 1 for every sharing player of that
    name; every sharing player has its name registered; every other player
    has a row of its own that is registered under no name. *)
Definition bound_inv (self : Optimizer) (h : loc → Player)
    (done : list (nat * loc)) (acc : gmap string nat * list MPConstraint)
  : Prop :=
  (∀ nm c, acc.1 !! nm = Some c →
     ∃ x co,
       first_sharing self h nm done x ∧
       acc.2 !! c = Some (Row [Some (lower_bound (h x.2));
                               Some (upper_bound (h x.2))] co) ∧
       ∀ y, y ∈ done → shares_constraint self (h y.2) = true →
            name (h y.2) = nm → co !! y.1 = Some 1) ∧
  (∀ y, y ∈ done → shares_constraint self (h y.2) = true →
        is_Some (acc.1 !! name (h y.2))) ∧
  (∀ y, y ∈ done → shares_constraint self (h y.2) = false →
        ∃ c, acc.2 !! c = Some (bound_row y.1 (h y.2)) ∧
             ∀ nm, acc.1 !! nm ≠ Some c).

(** ** Rows and their coefficients *)

(** The coefficients of a row after [SetCoefficient(v, 1)] for each [v] of
    [vs], in order. *)
Definition set_ones (vs : list nat) (co : gmap nat Z) : gmap nat Z :=
  foldl (λ m v, <[v := 1]> m) co vs.

(** ** Repeats of an existing roster *)

(** The upper bound [_set_no_duplicate_lineups] gives to each roster. *)
Definition max_repeats (self : Optimizer) : Z :=
  if truthy (uniques (settings self))
  then Z.max (roster_size self - default 0 (uniques (settings self))) 1
  else roster_size self - 1.

(** The index in the pool of the roster player at [l], if it is in the
    pool. *)
Definition pool_index (self : Optimizer) (h : loc → Player) (l : loc)
  : option nat :=
  player_to_idx_map self !! solver_id (h l).

Definition roster_row (self : Optimizer) (h : loc → Player) (roster : Roster)
  : MPConstraint :=
  Row [Some 0; Some (max_repeats self)]
      (set_ones (omap (pool_index self h) (sorted_players roster)) ∅).

(** ** Group constraints *)




(** ** Combo *)

(** The positions that count as pass-catchers: the receiver, and the tight
    end when allowed. *)
Definition pass_catcher (allow_te : bool) (position : string) : Prop :=
  position = "WR" ∨ (allow_te = true ∧ position = "TE").

(** The variables of the players of team [t] that satisfy [P], in pool
    order. *)
Definition team_vars (self : Optimizer) (h : loc → Player)
    (P : Player → bool) (t : string) : list nat :=
  fst <$> filter (λ ip, (String.eqb (team (h ip.2)) t && P (h ip.2))%bool = true)
            (enumerated_players self).

Definition combo_skill (self : Optimizer) (p : Player) : bool :=
  py_in (pos p) (["WR"] ++ (if combo_allow_te (settings self) then ["TE"] else [])).

Definition is_qb (p : Player) : bool := String.eqb (pos p) "QB".

(** The constraint [_set_combo] adds for team [t]. *)
Definition combo_constraint (self : Optimizer) (h : loc → Player) (t : string)
  : MPConstraint :=
  Ge (LSum (team_vars self h (combo_skill self) t))
     (LSum (team_vars self h is_qb t)).

(** The teams of the pool, in the order the set of teams is iterated. *)
Definition pool_teams (self : Optimizer) (h : loc → Player) : list string :=
  elements (list_to_set ((λ l, team (h l)) <$> players self) : gset string).

(** ** Anti-correlation *)

(** Both position sets are non-empty and the toggle of the current game
    type is set. *)
Definition anti_correlation_enabled (self : Optimizer) : bool :=
  truthy_list (offensive_positions self) &&
  truthy_list (defensive_positions self) &&
  (if showdown self then no_defense_against_captain (settings self)
   else no_offense_against_defense (settings self)).

(** * Example pools *)

(** A player record with the fields the examples vary; the solver id is
    the name followed by the position, and the player faces [opp]. *)
Definition example_player (nm tm ps : string) (lk bn mp cp : bool)
    (opp : string) : Player :=
  mkPlayer nm (String.append nm (String.append "/" ps)) tm ps "" 5000 (1 # 1)
    lk bn mp cp (String.eqb opp).

Definition no_lineup_constraints : LineupConstraints :=
  mkLineupConstraints [] (λ _, false) (λ _, false).

Definition classic_rules : RuleSet :=
  mkRuleSet 0 50000 2 [] [] (Some ["QB"; "WR"]) (Some ["DST"]) "classic".

Definition showdown_rules : RuleSet :=
  mkRuleSet 0 50000 2 [] [] (Some ["QB"; "WR"]) (Some ["DST"]) "showdown".

(** Two players, each with both flags raised. *)
Definition heap_two_conflicts : loc → Player := λ l,
  match l with
  | 0%nat => example_player "A" "X" "QB" true true false false "Y"
  | _ => example_player "B" "Y" "WR" true true false false "X"
  end.

(** One unflagged player, whom the exposure dictionary locks. *)
Definition heap_plain : loc → Player := λ l,
  match l with
  | 0%nat => example_player "A" "X" "QB" false false false false "Y"
  | _ => example_player "B" "Y" "WR" false false false false "X"
  end.

Definition exposure_lock_A : ExposureDct := mkExposure [] ["A"].

(** The optimizer over an empty pool, as a default where a run gives
    none. *)
Definition empty_optimizer : Optimizer :=
  mkOptimizer [] [] [] 0 0 0 [] None None [] false OptimizerSettings_default
    no_lineup_constraints [] [] ∅ ∅ [] ∅.

Definition constructed (r : Result Optimizer * State) : Optimizer :=
  match r.1 with
  | Ok self => self
  | Raised _ => empty_optimizer
  end.

(** A showdown pool: player A once as captain and once as utility, and a
    defence on the other team. *)
Definition heap_showdown : loc → Player := λ l,
  match l with
  | 0%nat => example_player "A" "X" "QB" false false false true "Y"
  | 1%nat => example_player "A" "X" "QB" false false false false "Y"
  | _ => example_player "D" "Y" "DST" false false false false "X"
  end.

Definition showdown_run : Result Optimizer * State :=
  init [0; 1; 2]%nat showdown_rules None no_lineup_constraints None
    (mkState heap_showdown Solver_new).

(** A classic pool: a quarterback and a receiver of team X, facing the
    defence of team Y. *)
Definition heap_classic : loc → Player := λ l,
  match l with
  | 0%nat => example_player "Q" "X" "QB" false false false false "Y"
  | 1%nat => example_player "W" "X" "WR" false false false false "Y"
  | _ => example_player "D" "Y" "DST" false false false false "X"
  end.

(** Settings with one existing roster, made of pool player 0 and of a
    player outside the pool, and three uniques. *)
Definition settings_uniques : OptimizerSettings :=
  mkSettings None (Some [mkRoster [0; 2]%nat]) false false (Some 3) 0
    false false.

Definition uniques_run : Result Optimizer * State :=
  init [0; 1]%nat classic_rules (Some settings_uniques) no_lineup_constraints
    None (mkState heap_classic Solver_new).

(** Two groups over the classic pool: one with exact count 0 and bounds
    (1, 2), one with exact count 1 and no bounds. *)
Definition lineup_constraints_groups : LineupConstraints :=
  mkLineupConstraints
    [mkGroup ["Q"; "W"] (Some 0) (Some 1) (Some 2);
     mkGroup ["Q"] (Some 1) None None]
    (λ _, false) (λ _, false).

Definition groups_run : Result Optimizer * State :=
  init [0; 1; 2]%nat classic_rules None lineup_constraints_groups None
    (mkState heap_classic Solver_new).

(** Settings with the combo rule, tight ends not allowed. *)
Definition settings_combo : OptimizerSettings :=
  mkSettings None None true false None 0 false false.

Definition combo_run : Result Optimizer * State :=
  init [0; 1; 2]%nat classic_rules (Some settings_combo) no_lineup_constraints
    None (mkState heap_classic Solver_new).

(** Settings with both anti-correlation toggles set. *)
Definition settings_anti : OptimizerSettings :=
  mkSettings None None false false None 0 true true.

(** The classic pool under the classic toggle. *)
Definition classic_anti_run : Result Optimizer * State :=
  init [0; 1; 2]%nat classic_rules (Some settings_anti) no_lineup_constraints
    None (mkState heap_classic Solver_new).

(** Showdown rules with an empty set of defensive positions. *)
Definition showdown_rules_no_defense : RuleSet :=
  mkRuleSet 0 50000 2 [] [] (Some ["QB"; "WR"]) (Some []) "showdown".

Definition showdown_no_defense_run : Result Optimizer * State :=
  init [0; 1; 2]%nat showdown_rules_no_defense (Some settings_anti)
    no_lineup_constraints None (mkState heap_showdown Solver_new).

(** The showdown pool under the showdown toggle. *)
Definition showdown_anti_run : Result Optimizer * State :=
  init [0; 1; 2]%nat showdown_rules (Some settings_anti)
    no_lineup_constraints None (mkState heap_showdown Solver_new).

(** * Vocabulary of the further properties *)

(** The coefficients of a row after [SetCoefficient(v, c)] for each pair
    [(v, c)] of [vcs], in order. *)
Definition set_coeffs (vcs : list (nat * Z)) (co : gmap nat Z) : gmap nat Z :=
  foldl (λ m vc, <[vc.1 := vc.2]> m) co vcs.

(** The variables of the pool players that satisfy [P], in pool order. *)
Definition pool_vars (self : Optimizer) (h : loc → Player) (P : Player → bool)
  : list nat :=
  omap (λ ip : nat * loc, if P (h ip.2) then Some ip.1 else None)
    (enumerated_players self).

(** The row [_set_positions] and [_set_general_positions] build for one
    limit, over the players whose [field] is the limit's key. *)
Definition limit_row (self : Optimizer) (h : loc → Player)
    (field : Player → string) (limit : string * Z * Z) : MPConstraint :=
  Row [Some limit.1.2; Some limit.2]
      (set_ones (pool_vars self h (λ p, String.eqb limit.1.1 (field p))) ∅).

(** The row [_set_stack] builds for one stack. *)
Definition stack_row (self : Optimizer) (h : loc → Player) (stack : Stack)
  : MPConstraint :=
  Row [Some (stack_count stack); Some (stack_count stack)]
      (set_ones (pool_vars self h (λ p, String.eqb (stack_team stack) (team p))) ∅).

(** The objective after [_optimize_on_projected_points]. *)
Definition set_objective (vcs : list (nat * Q)) (o : gmap nat Q) : gmap nat Q :=
  foldl (λ m vc, <[vc.1 := vc.2]> m) o vcs.

Definition with_objective (o : gmap nat Q) (s : Solver) : Solver :=
  mkSolver (solver_vars s) (solver_constraints s) o (maximization s).

Definition add_vars (vs : list MPVariable) (s : Solver) : Solver :=
  mkSolver (solver_vars s ++ vs) (solver_constraints s)
           (objective_coeffs s) (maximization s).



(** The variables [_set_no_opp_defense] collects against team [t]: the
    players at one of the positions [offs] that face [t], are flagged
    captain, and for whom the showdown toggle applies. *)
Definition offensive_vars (self : Optimizer) (h : loc → Player)
    (offs : list string) (t : string) : list nat :=
  fst <$> filter
            (λ ip : nat * loc,
               (py_in (pos (h ip.2)) offs
                && is_opposing_team_in_match_up (h ip.2) t
                && (no_defense_against_captain (settings self) && showdown self)
                && captain (h ip.2))%bool = true)
            (enumerated_players self).

(** The constraints it adds for team [t]: each collected offensive variable
    against each variable of a player of [t] at one of the positions
    [defs]. *)
Definition anti_pairs (self : Optimizer) (h : loc → Player)
    (offs defs : list string) (t : string) : list MPConstraint :=
  concat
    ((λ p, (λ d, Le (LVar p) (LSub (LConst 1) (LVar d)))
             <$> team_vars self h (λ q, py_in (pos q) defs) t)
       <$> offensive_vars self h offs t).

(** A lookup table of the constructor: each player's [key], in pool order,
    mapped to the player's index; a later player replaces an earlier one
    with the same key. *)
Definition index_map (key : Player → string) (h : loc → Player)
    (enum : list (nat * loc)) (m : gmap string nat) : gmap string nat :=
  foldl (λ m ip, <[key (h ip.2) := ip.1]> m) m enum.

(** A classic rule set with position limits, one of them for a position
    no pool player has, and a general position limit. *)
Definition quota_rules : RuleSet :=
  mkRuleSet 0 50000 2 [("QB", 1, 1); ("WR", 0, 2); ("K", 0, 1)] [("G", 0, 1)]
    (Some ["QB"; "WR"]) (Some ["DST"]) "classic".

(** Settings with a stack of two players of team X and two teams
    required. *)
Definition settings_stacks : OptimizerSettings :=
  mkSettings (Some [mkStack "X" 2]) None false false None 2 false false.

Definition quota_run : Result Optimizer * State :=
  init [0; 1; 2]%nat quota_rules (Some settings_stacks) no_lineup_constraints
    None (mkState heap_classic Solver_new).



(** A pool whose second player has both flags set; the first is locked. *)
Definition heap_second_conflict : loc → Player := λ l,
  match l with
  | 0%nat => example_player "A" "X" "QB" true false false false "Y"
  | 1%nat => example_player "B" "Y" "WR" true true false false "X"
  | _ => example_player "C" "Y" "DST" false false false false "X"
  end.

(** The plain pool, constructed with player A locked by exposure. *)
Definition exposure_run : Result Optimizer * State :=
  init [0; 1]%nat classic_rules None no_lineup_constraints
    (Some exposure_lock_A) (mkState heap_plain Solver_new).

(** * Reasoning about runs *)

Lemma bind_run {A B} (m : M A) (k : A → M B) st :
  bind m k st = match m st with
                | (Ok a, st') => k a st'
                | (Raised e, st') => (Raised e, st')
                end.
Proof. reflexivity. Qed.

Lemma bind_ok {A B} (m : M A) (k : A → M B) st a st' :
  m st = (Ok a, st') → bind m k st = k a st'.
Proof. intros H. rewrite bind_run, H. reflexivity. Qed.

Lemma bind_raised {A B} (m : M A) (k : A → M B) st e st' :
  m st = (Raised e, st') → bind m k st = (Raised e, st').
Proof. intros H. rewrite bind_run, H. reflexivity. Qed.

(** One step of symbolic execution. *)
Ltac mstep := rewrite ?bind_run; cbn -[Z.sub Z.max Z.ltb].

Lemma State_eta st : mkState (heap st) (solver st) = st.
Proof. by destruct st. Qed.

Lemma Solver_eta s :
  mkSolver (solver_vars s) (solver_constraints s) (objective_coeffs s)
    (maximization s) = s.
Proof. by destruct s. Qed.

Lemma add_constraints_nil s : add_constraints [] s = s.
Proof. unfold add_constraints. rewrite app_nil_r. apply Solver_eta. Qed.

Lemma add_constraints_app cs1 cs2 s :
  add_constraints cs2 (add_constraints cs1 s) = add_constraints (cs1 ++ cs2) s.
Proof. unfold add_constraints; cbn. by rewrite app_assoc. Qed.

Lemma Constraint_run args st :
  Constraint args st =
  (Ok (length (solver_constraints (solver st))),
   mkState (heap st) (add_constraints [Row args ∅] (solver st))).
Proof. reflexivity. Qed.

Lemma Add_run c st :
  Add c st = (Ok tt, mkState (heap st) (add_constraints [c] (solver st))).
Proof. reflexivity. Qed.

Lemma SetCoefficient_run h v c st :
  SetCoefficient h v c st =
  (Ok tt, mkState (heap st)
            (with_constraints
               (alter (set_coeff v c) h (solver_constraints (solver st)))
               (solver st))).
Proof. reflexivity. Qed.


(** ** Loops *)

Lemma for_each_cons {A} (x : A) l body st :
  for_each (x :: l) body st =
  match body x st with
  | (Ok _, st') => for_each l body st'
  | (Raised e, st') => (Raised e, st')
  end.
Proof. reflexivity. Qed.


Lemma observer_ret {A} (a : A) : observer (ret a).
Proof. by intros st. Qed.

Lemma observer_raise {A} e : observer (@raise A e).
Proof. by intros st. Qed.

Lemma observer_read l : observer (read l).
Proof. by intros st. Qed.

Lemma observer_bind {A B} (m : M A) (k : A → M B) :
  observer m → (∀ a, observer (k a)) → observer (bind m k).
Proof.
  intros Hm Hk st. rewrite bind_run. specialize (Hm st).
  destruct (m st) as [[a|e] st1]; cbn in *; subst; [apply Hk | done].
Qed.

Lemma observer_variable self i : observer (variable self i).
Proof. unfold variable. destruct (_ !! _); [apply observer_ret | apply observer_raise]. Qed.

Lemma observer_py_in_opt x o : observer (py_in_opt x o).
Proof. destruct o; [apply observer_ret | apply observer_raise]. Qed.

Lemma observer_comprehension {A B} (l : list A) cond (f : A → M B) :
  (∀ x, observer (cond x)) → (∀ x, observer (f x)) →
  observer (comprehension l cond f).
Proof.
  intros Hc Hf. induction l as [|x l IH]; [apply observer_ret|].
  cbn [comprehension]. apply observer_bind; [apply Hc|].
  intros [|]; [|apply IH].
  apply observer_bind; [apply Hf|]. intros y.
  apply observer_bind; [apply IH|]. intros ys. apply observer_ret.
Qed.

Create HintDb observe.
#[global] Hint Resolve observer_ret observer_raise observer_read observer_bind
  observer_variable observer_py_in_opt observer_comprehension : observe.

(** A comprehension whose condition and element are read off a fixed heap
    is the corresponding filter and map. *)
Lemma comprehension_run {A B} (l : list A) cond (f : A → M B)
    (c : A → bool) (g : A → B) st :
  (∀ x, x ∈ l → cond x st = (Ok (c x), st)) →
  (∀ x, x ∈ l → c x = true → f x st = (Ok (g x), st)) →
  comprehension l cond f st = (Ok (g <$> filter (λ x, c x = true) l), st).
Proof.
  intros Hc Hf. induction l as [|x l IH]; [done|].
  cbn [comprehension]. rewrite bind_run, Hc by left.
  rewrite filter_cons. destruct (c x) eqn:E.
  - rewrite decide_True by done.
    rewrite bind_run, Hf by (done || left).
    rewrite bind_run, IH; [done| |]; intros; [apply Hc | apply Hf]; by try right.
  - rewrite decide_False by done.
    apply IH; intros; [apply Hc | apply Hf]; by try right.
Qed.

(** A comprehension whose condition never answers [True] yields nothing. *)
Lemma comprehension_none {A B} (l : list A) cond (f : A → M B) st ys st' :
  (∀ x st1, (cond x st1).1 ≠ Ok true) →
  comprehension l cond f st = (Ok ys, st') → ys = [].
Proof.
  intros Hc. revert st. induction l as [|x l IH]; intros st.
  - cbn. by intros [= <- _].
  - cbn [comprehension]. rewrite bind_run. specialize (Hc x st).
    destruct (cond x st) as [[[|]|e] st1]; cbn in Hc; [done|apply IH|done].
Qed.

(** ** Enumeration *)

Lemma enumerate_from_lookup {A} (l : list A) k i x :
  enumerate_from k l !! i = Some x ↔ ∃ y, l !! i = Some y ∧ x = ((k + i)%nat, y).
Proof.
  revert k i. induction l as [|a l IH]; intros k i; cbn.
  - split; [done | by intros (? & ? & _)].
  - destruct i as [|i]; cbn.
    + rewrite Nat.add_0_r. split; [intros [= <-]; eauto | by intros (? & [= <-] & ->)].
    + rewrite IH. by replace (S k + i)%nat with (k + S i)%nat by lia.
Qed.

Lemma elem_of_enumerate_from {A} (l : list A) k i x :
  (i, x) ∈ enumerate_from k l ↔ (k ≤ i)%nat ∧ l !! (i - k)%nat = Some x.
Proof.
  rewrite list_elem_of_lookup. split.
  - intros (j & Hj). apply enumerate_from_lookup in Hj as (y & Hy & [= -> ->]).
    split; [lia|]. by replace (k + j - k)%nat with j by lia.
  - intros (Hk & Hx). exists (i - k)%nat. apply enumerate_from_lookup.
    exists x. split; [done|]. f_equal. lia.
Qed.

Lemma elem_of_enumerate {A} (l : list A) i x :
  (i, x) ∈ enumerate l ↔ l !! i = Some x.
Proof.
  unfold enumerate. rewrite elem_of_enumerate_from, Nat.sub_0_r.
  split; [by intros [_ ?] | split; [lia | done]].
Qed.

Lemma wf_variable self i l :
  wf self → (i, l) ∈ enumerated_players self → variable self i = ret i.
Proof.
  intros (He & Hv & _) Hin. rewrite He in Hin.
  apply elem_of_enumerate, lookup_lt_Some in Hin.
  unfold variable. rewrite Hv, lookup_seq_lt by done. done.
Qed.

Lemma wf_player self i l :
  wf self → (i, l) ∈ enumerated_players self → l ∈ players self.
Proof.
  intros (He & _) Hin. rewrite He in Hin.
  apply elem_of_enumerate in Hin. by eapply list_elem_of_lookup_2.
Qed.

Lemma wf_variable_lt self i :
  wf self → (i < length (players self))%nat → variable self i = ret i.
Proof.
  intros (_ & Hv & _) Hi. unfold variable. by rewrite Hv, lookup_seq_lt.
Qed.

(** ** Eligibility resolution *)

Section resolution.
Context (lc : LineupConstraints) (locked banned : list string).

Lemma lock_resolve p : lock (resolve lc locked banned p) = _is_locked lc locked p.
Proof.
  unfold resolve, _is_banned, _is_locked.
  destruct (is_locked lc (name p)), (py_in (name p) locked), (lock p) eqn:E;
    cbn; repeat (destruct (_ || _)%bool; cbn); by rewrite ?E.
Qed.

Lemma ban_resolve p : ban (resolve lc locked banned p) = _is_banned lc banned p.
Proof.
  unfold resolve, _is_banned, _is_locked.
  destruct (is_locked lc (name p) || py_in (name p) locked || lock p)%bool; cbn;
    destruct (is_banned lc (name p)), (py_in (name p) banned), (ban p) eqn:E;
    cbn; by rewrite ?E.
Qed.

Lemma resolve_same p : same_but_flags (resolve lc locked banned p) p.
Proof.
  unfold resolve.
  destruct (_is_locked lc locked p); cbn;
    destruct (_is_banned lc banned _); cbn; by repeat split.
Qed.

Lemma is_locked_same p q :
  name p = name q → lock p = lock q → _is_locked lc locked p = _is_locked lc locked q.
Proof. unfold _is_locked. by intros -> ->. Qed.

Lemma is_banned_same p q :
  name p = name q → ban p = ban q → _is_banned lc banned p = _is_banned lc banned q.
Proof. unfold _is_banned. by intros -> ->. Qed.

Lemma is_locked_resolve p :
  _is_locked lc locked (resolve lc locked banned p) = _is_locked lc locked p.
Proof.
  unfold _is_locked at 1. rewrite lock_resolve.
  destruct (resolve_same p) as (-> & _). unfold _is_locked.
  by destruct (is_locked lc (name p)), (py_in (name p) locked), (lock p).
Qed.

Lemma is_banned_resolve p :
  _is_banned lc banned (resolve lc locked banned p) = _is_banned lc banned p.
Proof.
  unfold _is_banned at 1. rewrite ban_resolve.
  destruct (resolve_same p) as (-> & _). unfold _is_banned.
  by destruct (is_banned lc (name p)), (py_in (name p) banned), (ban p).
Qed.

Lemma conflict_resolve p :
  conflict lc locked banned (resolve lc locked banned p) = conflict lc locked banned p.
Proof. unfold conflict. by rewrite is_locked_resolve, is_banned_resolve. Qed.

Lemma conflict_flags p :
  (lock (resolve lc locked banned p) && ban (resolve lc locked banned p))%bool
  = conflict lc locked banned p.
Proof. by rewrite lock_resolve, ban_resolve. Qed.

(** One turn of the constructor's loop. *)
Lemma init_player_run vars p2i n2i idx l st :
  let p := heap st l in
  ∃ st',
    init_player lc locked banned (vars, p2i, n2i) (idx, l) st =
      (if conflict lc locked banned p
       then Raised (PlayerBanAndLockException (name p))
       else Ok ((vars ++ [length (solver_vars (solver st))])%list,
                <[solver_id p := idx]> p2i, <[name p := idx]> n2i),
       st') ∧
    (∀ l', heap st' l' =
           if decide (l' = l) then resolve lc locked banned p else heap st l') ∧
    solver st' = add_var (mkVar 0 1 (solver_id p)) (solver st).
Proof.
  intros p. unfold init_player. mstep. fold p.
  rewrite <- (conflict_flags p). unfold resolve.
  destruct (_is_locked lc locked p) eqn:El; mstep;
    rewrite ?decide_True by done; fold p.
  - destruct (_is_banned lc banned (with_lock true p)) eqn:Eb; mstep;
      rewrite ?decide_True by done; fold p; cbn;
      try destruct (lock p); try destruct (ban p); cbn;
      (eexists; split; [reflexivity|]);
      (split; [|done]); intros l'; cbn;
      repeat (case_decide; subst; try done).
  - destruct (_is_banned lc banned p) eqn:Eb; mstep;
      rewrite ?decide_True by done; fold p; cbn;
      try destruct (lock p); try destruct (ban p); cbn;
      (eexists; split; [reflexivity|]);
      (split; [|done]); intros l'; cbn;
      repeat (case_decide; subst; try done).
Qed.

End resolution.

(** ** The constructor's loop *)

Section constructor_loop.
Context (lc : LineupConstraints) (locked banned : list string).

Lemma resolve_idem p :
  resolve lc locked banned (resolve lc locked banned p) = resolve lc locked banned p.
Proof.
  destruct p as [nm sid tm ps gp c pr lk bn mp cp opp].
  unfold resolve, _is_locked, _is_banned; cbn.
  destruct (is_locked lc nm) eqn:E1, (py_in nm locked) eqn:E2, lk;
    destruct (is_banned lc nm) eqn:E3, (py_in nm banned) eqn:E4, bn;
    repeat (progress (cbn; rewrite ?E1, ?E2, ?E3, ?E4)); reflexivity.
Qed.

Local Abbreviation loop k ls reg :=
  (for_fold (enumerate_from k ls) (init_player lc locked banned) reg).

(** The loop creates variables only, and touches nothing but the flags of
    the records it visits. *)
Lemma init_loop_frame ls : ∀ k reg st,
  solver_constraints (solver (loop k ls reg st).2) = solver_constraints (solver st) ∧
  objective_coeffs (solver (loop k ls reg st).2) = objective_coeffs (solver st) ∧
  maximization (solver (loop k ls reg st).2) = maximization (solver st) ∧
  ∀ l, (l ∉ ls → heap (loop k ls reg st).2 l = heap st l) ∧
       (heap (loop k ls reg st).2 l = heap st l ∨
        heap (loop k ls reg st).2 l = resolve lc locked banned (heap st l)).
Proof.
  induction ls as [|a ls IH]; intros k [[vars p2i] n2i] st.
  - cbn. repeat split; auto.
  - cbn [enumerate_from for_fold]. rewrite bind_run.
    destruct (init_player_run lc locked banned vars p2i n2i k a st)
      as (st1 & Hrun & Hheap & Hsolver).
    rewrite Hrun.
    assert (Hl : ∀ l, (l ∉ a :: ls → heap st1 l = heap st l) ∧
       (heap st1 l = heap st l ∨ heap st1 l = resolve lc locked banned (heap st l))).
    { intros l. rewrite Hheap. case_decide as E; subst.
      - split; [intros []; left | by right].
      - by split; [|left]. }
    destruct (conflict lc locked banned (heap st a)).
    + cbn [snd]. rewrite Hsolver. cbn.
      split; [done|]. split; [done|]. split; [done|]. apply Hl.
    + destruct (IH (S k) (vars ++ [length (solver_vars (solver st))],
                          <[solver_id (heap st a) := k]> p2i,
                          <[name (heap st a) := k]> n2i) st1)
        as (Hc & Ho & Hm & Hh).
      lazy beta iota. rewrite Hc, Ho, Hm, Hsolver. cbn.
      split; [done|]. split; [done|]. split; [done|].
      intros l. split.
      * intros Hn. destruct (Hh l) as [Hx _].
        rewrite Hx by set_solver. apply Hl, Hn.
      * destruct (Hh l) as [_ [Hx | Hx]]; rewrite Hx; [apply Hl|].
        destruct (Hl l) as [_ [Hy | Hy]]; rewrite Hy; [by right|].
        right. apply resolve_idem.
Qed.

(** With no conflicting player the loop runs to its end. *)
Lemma init_loop_ok ls : ∀ k vars p2i n2i st,
  (∀ l, l ∈ ls → conflict lc locked banned (heap st l) = false) →
  ∃ p2i' n2i' st',
    loop k ls (vars, p2i, n2i) st =
      (Ok ((vars ++ seq (length (solver_vars (solver st))) (length ls))%list,
           p2i', n2i'), st') ∧
    (∀ l, heap st' l =
          if decide (l ∈ ls) then resolve lc locked banned (heap st l)
          else heap st l) ∧
    (∀ n, map_Forall (λ _ i, (i < n)%nat) p2i → (k + length ls ≤ n)%nat →
          map_Forall (λ _ i, (i < n)%nat) p2i') ∧
    (∀ n, map_Forall (λ _ i, (i < n)%nat) n2i → (k + length ls ≤ n)%nat →
          map_Forall (λ _ i, (i < n)%nat) n2i').
Proof.
  induction ls as [|a ls IH]; intros k vars p2i n2i st Hno.
  - exists p2i, n2i, st. cbn. rewrite app_nil_r. repeat split; auto.
  - cbn [enumerate_from for_fold]. rewrite bind_run.
    destruct (init_player_run lc locked banned vars p2i n2i k a st)
      as (st1 & Hrun & Hheap & Hsolver).
    rewrite Hrun, Hno by left.
    destruct (IH (S k) (vars ++ [length (solver_vars (solver st))])%list
                (<[solver_id (heap st a) := k]> p2i)
                (<[name (heap st a) := k]> n2i) st1)
      as (p2i' & n2i' & st' & Hloop & Hh & Hp & Hn).
    { intros l Hl. rewrite Hheap. case_decide; subst.
      - rewrite conflict_resolve. apply Hno; left.
      - apply Hno. by right. }
    exists p2i', n2i', st'. lazy beta iota. rewrite Hloop, Hsolver. cbn.
    rewrite length_app, <- app_assoc. cbn. rewrite Nat.add_1_r.
    split; [done|]. split; [|split].
    + intros l. rewrite Hh, !Hheap.
      repeat case_decide; subst; rewrite ?resolve_idem; try done; set_solver.
    + intros n Hall Hle. cbn in Hle. apply Hp; [|lia].
      apply map_Forall_insert_2; [lia | done].
    + intros n Hall Hle. cbn in Hle. apply Hn; [|lia].
      apply map_Forall_insert_2; [lia | done].
Qed.

(** The loop stops at the first conflicting player and reports its name. *)
Lemma init_loop_raises pre l1 post : ∀ k reg st,
  (∀ l, l ∈ pre → conflict lc locked banned (heap st l) = false) →
  conflict lc locked banned (heap st l1) = true →
  (loop k (pre ++ l1 :: post) reg st).1 =
    Raised (PlayerBanAndLockException (name (heap st l1))).
Proof.
  induction pre as [|a pre IH]; intros k [[vars p2i] n2i] st Hno Hc.
  - cbn [app enumerate_from for_fold]. rewrite bind_run.
    destruct (init_player_run lc locked banned vars p2i n2i k l1 st)
      as (st1 & Hrun & _).
    by rewrite Hrun, Hc.
  - rewrite <- app_comm_cons. cbn [enumerate_from for_fold]. rewrite bind_run.
    destruct (init_player_run lc locked banned vars p2i n2i k a st)
      as (st1 & Hrun & Hheap & _).
    rewrite Hrun, Hno by left.
    rewrite IH.
    + rewrite Hheap. case_decide; [subst|done].
      by destruct (resolve_same lc locked banned (heap st a)) as (-> & _).
    + intros l Hl. rewrite Hheap. case_decide; subst.
      * rewrite conflict_resolve. apply Hno; left.
      * apply Hno. by right.
    + rewrite Hheap. case_decide; subst; [|done].
      by rewrite conflict_resolve.
Qed.

End constructor_loop.

(** ** The constructor *)

Lemma filter_all_true {A} (l : list A) :
  filter (λ _ : A, true = true) l = l.
Proof.
  induction l as [|x l IH]; [done|].
  rewrite filter_cons, decide_True by done. by rewrite IH.
Qed.

Lemma player_teams_run ps st :
  player_teams ps st = (Ok ((λ l, team (heap st l)) <$> ps), st).
Proof.
  unfold player_teams.
  rewrite (comprehension_run ps _ _ (λ _, true) (λ l, team (heap st l))); try done.
  by rewrite filter_all_true.
Qed.

Lemma observer_player_teams ps : observer (player_teams ps).
Proof. intros st. by rewrite player_teams_run. Qed.
#[global] Hint Resolve observer_player_teams : observe.

(** Some player of a list conflicts: there is a first one. *)
Lemma first_conflict_split (f : loc → bool) ls :
  (∃ l, l ∈ ls ∧ f l = true) →
  ∃ pre l1 post, ls = pre ++ l1 :: post ∧ (∀ l, l ∈ pre → f l = false) ∧ f l1 = true.
Proof.
  induction ls as [|a ls IH]; intros (l & Hin & Hf); [by apply elem_of_nil in Hin|].
  destruct (f a) eqn:Ea.
  - exists [], a, ls. split; [done|]. split; [|done]. by intros ? ?%elem_of_nil.
  - destruct IH as (pre & l1 & post & -> & Hpre & H1).
    { exists l. split; [|done]. apply elem_of_cons in Hin as [->|]; [congruence|done]. }
    exists (a :: pre), l1, post. split; [done|]. split; [|done].
    intros l' [->|]%elem_of_cons; auto.
Qed.

Section constructor.
Context (ps : list loc) (rule_set : RuleSet) (stg : option OptimizerSettings)
  (lc : LineupConstraints) (exposure : option ExposureDct).

Local Abbreviation locked := (exposure_locked exposure).
Local Abbreviation banned := (exposure_banned exposure).

(** What construction leaves behind, whatever its outcome: a solver without
    constraints, and player records changed in their flags at most. *)
Lemma init_frame st :
  let st' := (init ps rule_set stg lc exposure st).2 in
  solver_constraints (solver st') = [] ∧
  ∀ l, (l ∉ ps → heap st' l = heap st l) ∧
       (heap st' l = heap st l ∨
        heap st' l = resolve lc locked banned (heap st l)).
Proof.
  unfold init. rewrite bind_run. cbn [modify_solver]. rewrite bind_run.
  set (st0 := mkState (heap st) ((λ _, Solver_new) (solver st))).
  set (reg0 := ([], ∅, ∅)).
  destruct (init_loop_frame lc locked banned ps 0 reg0 st0) as (Hc & _ & _ & Hh).
  fold (@enumerate loc ps) in *.
  unfold exposure_locked, exposure_banned in *.
  match goal with
  | |- context [for_fold ?a ?b ?c ?d] =>
      destruct (for_fold a b c d) as [[[[vars p2i] n2i]|e] st1]
  end; cbn [snd] in *; [|done].
  rewrite bind_run, player_teams_run. done.
Qed.

(** Construction succeeds when no player of the pool is both locked and
    banned. *)
Lemma init_ok st :
  (∀ l, l ∈ ps → conflict lc locked banned (heap st l) = false) →
  ∃ self st',
    init ps rule_set stg lc exposure st = (Ok self, st') ∧
    wf self ∧
    players self = ps ∧
    settings self = default OptimizerSettings_default stg ∧
    lineup_constraints self = lc ∧
    showdown self = String.eqb (rs_game_type rule_set) "showdown" ∧
    ∀ l, heap st' l =
         if decide (l ∈ ps) then resolve lc locked banned (heap st l)
         else heap st l.
Proof.
  intros Hno. unfold init. rewrite bind_run. cbn [modify_solver]. rewrite bind_run.
  set (st0 := mkState (heap st) ((λ _, Solver_new) (solver st))).
  destruct (init_loop_ok lc locked banned ps 0 [] ∅ ∅ st0 Hno)
    as (p2i' & n2i' & st1 & Hloop & Hh & Hp & Hn).
  unfold exposure_locked, exposure_banned, enumerate in *.
  rewrite Hloop. rewrite bind_run, player_teams_run.
  eexists _, _. split; [reflexivity|]. cbn.
  split; [|done].
  split; [done|]. split; [done|].
  split; [refine (Hp (length ps) _ _) | refine (Hn (length ps) _ _)];
    first [ exact (map_Forall_empty _) | cbn; lia ].
Qed.

(** Construction fails at the first player that is both locked and banned,
    naming it, with no constraint in the solver. *)
Lemma init_raises pre l1 post st :
  ps = pre ++ l1 :: post →
  (∀ l, l ∈ pre → conflict lc locked banned (heap st l) = false) →
  conflict lc locked banned (heap st l1) = true →
  ∃ st',
    init ps rule_set stg lc exposure st =
      (Raised (PlayerBanAndLockException (name (heap st l1))), st') ∧
    solver_constraints (solver st') = [].
Proof.
  intros Hps Hno Hc.
  pose proof (init_frame st) as [Hcs _]. cbn zeta in Hcs.
  exists (init ps rule_set stg lc exposure st).2. split; [|done].
  clear Hcs. unfold init. rewrite bind_run. cbn [modify_solver]. rewrite bind_run.
  set (st0 := mkState (heap st) ((λ _, Solver_new) (solver st))).
  set (reg0 := ([], ∅, ∅)).
  pose proof (init_loop_raises lc locked banned pre l1 post 0 reg0 st0 Hno Hc) as Hr.
  rewrite <- Hps in Hr.
  unfold exposure_locked, exposure_banned, enumerate in *.
  match goal with
  | |- context [for_fold ?a ?b ?c ?d] =>
      destruct (for_fold a b c d) as [[r|e] st1]
  end; cbn in Hr; [done|]. by inversion Hr.
Qed.

(** A successful construction found no conflicting player. *)
Lemma init_ok_inv st self st' :
  init ps rule_set stg lc exposure st = (Ok self, st') →
  ∀ l, l ∈ ps → conflict lc locked banned (heap st l) = false.
Proof.
  intros Hinit l Hl.
  destruct (conflict lc locked banned (heap st l)) eqn:Hc; [|done].
  destruct (first_conflict_split (λ l, conflict lc locked banned (heap st l)) ps)
    as (pre & l1 & post & Hps & Hpre & H1); [by exists l|].
  destruct (init_raises pre l1 post st Hps Hpre H1) as (st1 & Hr & _).
  congruence.
Qed.

End constructor.

(** ** Solving reads the player records and writes none *)

Lemma keeps_ret {A} (a : A) : keeps_heap (ret a).
Proof. by intros st. Qed.

Lemma keeps_raise {A} e : keeps_heap (@raise A e).
Proof. by intros st. Qed.

Lemma keeps_read l : keeps_heap (read l).
Proof. by intros st. Qed.

Lemma keeps_get_solver : keeps_heap get_solver.
Proof. by intros st. Qed.

Lemma keeps_modify_solver f : keeps_heap (modify_solver f).
Proof. by intros st. Qed.

Lemma keeps_bind {A B} (m : M A) (k : A → M B) :
  keeps_heap m → (∀ a, keeps_heap (k a)) → keeps_heap (bind m k).
Proof.
  intros Hm Hk st. rewrite bind_run. specialize (Hm st).
  destruct (m st) as [[a|e] st1]; cbn in *; [|done].
  by rewrite Hk.
Qed.

Lemma keeps_for_each {A} (l : list A) body :
  (∀ x, keeps_heap (body x)) → keeps_heap (for_each l body).
Proof.
  intros Hb. induction l as [|x l IH]; [apply keeps_ret|].
  cbn [for_each]. apply keeps_bind; auto.
Qed.

Lemma keeps_for_fold {A S} (l : list A) (body : S → A → M S) s :
  (∀ s x, keeps_heap (body s x)) → keeps_heap (for_fold l body s).
Proof.
  intros Hb. revert s. induction l as [|x l IH]; intros s; [apply keeps_ret|].
  cbn [for_fold]. apply keeps_bind; auto.
Qed.

Lemma keeps_observer {A} (m : M A) : observer m → keeps_heap m.
Proof. intros H st. by rewrite H. Qed.

Lemma keeps_comprehension {A B} (l : list A) cond (f : A → M B) :
  (∀ x, keeps_heap (cond x)) → (∀ x, keeps_heap (f x)) →
  keeps_heap (comprehension l cond f).
Proof.
  intros Hc Hf. induction l as [|x l IH]; [apply keeps_ret|].
  cbn [comprehension]. apply keeps_bind; [apply Hc|].
  intros [|]; [|apply IH].
  apply keeps_bind; [apply Hf|]. intros y.
  apply keeps_bind; [apply IH|]. intros ys. apply keeps_ret.
Qed.

Lemma keeps_IntVar lb ub nm : keeps_heap (IntVar lb ub nm).
Proof. by intros st. Qed.

Lemma keeps_Constraint args : keeps_heap (Constraint args).
Proof. by intros st. Qed.

Lemma keeps_SetCoefficient h v c : keeps_heap (SetCoefficient h v c).
Proof. by intros st. Qed.

Lemma keeps_Add c : keeps_heap (Add c).
Proof. by intros st. Qed.

Lemma keeps_Objective_SetCoefficient v c :
  keeps_heap (Objective_SetCoefficient v c).
Proof. by intros st. Qed.

Lemma keeps_variable self i : keeps_heap (variable self i).
Proof. apply keeps_observer, observer_variable. Qed.

Lemma keeps_name_idx self nm : keeps_heap (name_idx self nm).
Proof. unfold name_idx. destruct (_ !! _); [apply keeps_ret | apply keeps_raise]. Qed.

Lemma keeps_py_in_opt x o : keeps_heap (py_in_opt x o).
Proof. apply keeps_observer, observer_py_in_opt. Qed.

Lemma keeps_player_teams ps : keeps_heap (player_teams ps).
Proof. apply keeps_observer, observer_player_teams. Qed.

(** Decomposes a frame goal along the structure of the program. *)
Ltac keeps :=
  repeat first
    [ progress intros
    | apply keeps_ret | apply keeps_raise | apply keeps_read
    | apply keeps_get_solver | apply keeps_modify_solver
    | apply keeps_IntVar | apply keeps_Constraint | apply keeps_SetCoefficient
    | apply keeps_Add | apply keeps_Objective_SetCoefficient
    | apply keeps_variable | apply keeps_name_idx | apply keeps_py_in_opt
    | apply keeps_player_teams
    | apply keeps_bind | apply keeps_for_each | apply keeps_for_fold
    | apply keeps_comprehension
    | match goal with
      | |- keeps_heap (match ?x with _ => _ end) => destruct x
      end ].

Lemma keeps_set_player_constraints self : keeps_heap (_set_player_constraints self).
Proof. unfold _set_player_constraints, player_constraint. keeps. Qed.

Lemma keeps_set_player_group_constraints self :
  keeps_heap (_set_player_group_constraints self).
Proof. unfold _set_player_group_constraints. keeps. Qed.

Lemma keeps_optimize_on_projected_points self :
  keeps_heap (_optimize_on_projected_points self).
Proof. unfold _optimize_on_projected_points. keeps. Qed.

Lemma keeps_set_salary_range self : keeps_heap (_set_salary_range self).
Proof. unfold _set_salary_range. keeps. Qed.

Lemma keeps_set_roster_size self : keeps_heap (_set_roster_size self).
Proof. unfold _set_roster_size. keeps. Qed.

Lemma keeps_set_positions self : keeps_heap (_set_positions self).
Proof. unfold _set_positions. keeps. Qed.

Lemma keeps_set_general_positions self : keeps_heap (_set_general_positions self).
Proof. unfold _set_general_positions. keeps. Qed.

Lemma keeps_set_stack self : keeps_heap (_set_stack self).
Proof. unfold _set_stack. keeps. Qed.

Lemma keeps_set_combo self : keeps_heap (_set_combo self).
Proof. unfold _set_combo. keeps. Qed.

Lemma keeps_set_no_opp_defense self : keeps_heap (_set_no_opp_defense self).
Proof. unfold _set_no_opp_defense. keeps. Qed.

Lemma keeps_set_no_duplicate_lineups self :
  keeps_heap (_set_no_duplicate_lineups self).
Proof. unfold _set_no_duplicate_lineups. keeps. Qed.

Lemma keeps_set_min_teams self : keeps_heap (_set_min_teams self).
Proof. unfold _set_min_teams. keeps. Qed.

Lemma keeps_set_single_captain self : keeps_heap (_set_single_captain self).
Proof. unfold _set_single_captain. keeps. Qed.

Create HintDb frame.
#[global] Hint Resolve keeps_set_player_constraints
  keeps_set_player_group_constraints keeps_optimize_on_projected_points
  keeps_set_salary_range keeps_set_roster_size keeps_set_positions
  keeps_set_general_positions keeps_set_stack keeps_set_combo
  keeps_set_no_opp_defense keeps_set_no_duplicate_lineups
  keeps_set_min_teams keeps_set_single_captain keeps_ret : frame.

Lemma keeps_build_model self : keeps_heap (build_model self).
Proof.
  unfold build_model.
  repeat (apply keeps_bind;
          [first [ solve [eauto with frame]
                 | destruct (showdown self); solve [eauto with frame] ]
          | intros _]).
  eauto with frame.
Qed.

Lemma keeps_solve Solve self : keeps_heap (solve Solve self).
Proof.
  unfold solve. apply keeps_bind; [apply keeps_build_model|]. intros _. keeps.
Qed.

(** * Eligibility: lock and ban conflicts *)

(** C3, as stated, fails: with two conflicting players of different names
    the constructor reports the first one only, so for the second one the
    exception does not identify that player. *)
Lemma ban_and_lock_reports_first_only :
  let st := mkState heap_two_conflicts Solver_new in
  let r := init [0; 1]%nat classic_rules None no_lineup_constraints None st in
  (1%nat ∈ [0; 1]%nat) ∧
  conflict no_lineup_constraints [] [] (heap st 1%nat) = true ∧
  r.1 = Raised (PlayerBanAndLockException "A") ∧
  r.1 ≠ Raised (PlayerBanAndLockException (name (heap st 1%nat))).
Proof.
  cbn zeta. split; [set_solver|]. split; [reflexivity|].
  split; [reflexivity|]. vm_compute. discriminate.
Qed.

(** C3, amended: if some player of the pool is both resolved-locked and
    resolved-banned, construction fails with [PlayerBanAndLockException]
    carrying the name of the first such player in pool order, and the solver
    holds no constraint at that point; if no player is both, construction
    succeeds. *)
Theorem ban_and_lock_conflict (ps : list loc) (rule_set : RuleSet)
    (stg : option OptimizerSettings) (lc : LineupConstraints)
    (exposure : option ExposureDct) (st : State) :
  ((∃ l, l ∈ ps ∧
         conflict lc (exposure_locked exposure) (exposure_banned exposure)
           (heap st l) = true) →
   ∃ pre l1 post st',
     ps = pre ++ l1 :: post ∧
     (∀ l, l ∈ pre →
           conflict lc (exposure_locked exposure) (exposure_banned exposure)
             (heap st l) = false) ∧
     conflict lc (exposure_locked exposure) (exposure_banned exposure)
       (heap st l1) = true ∧
     init ps rule_set stg lc exposure st =
       (Raised (PlayerBanAndLockException (name (heap st l1))), st') ∧
     solver_constraints (solver st') = []) ∧
  ((∀ l, l ∈ ps →
         conflict lc (exposure_locked exposure) (exposure_banned exposure)
           (heap st l) = false) →
   ∃ self st', init ps rule_set stg lc exposure st = (Ok self, st')).
Proof.
  split.
  - intros Hex.
    destruct (first_conflict_split
                (λ l, conflict lc (exposure_locked exposure)
                        (exposure_banned exposure) (heap st l)) ps Hex)
      as (pre & l1 & post & Hps & Hpre & H1).
    destruct (init_raises ps rule_set stg lc exposure pre l1 post st Hps Hpre H1)
      as (st' & Hr & Hcs).
    by exists pre, l1, post, st'.
  - intros Hno.
    destruct (init_ok ps rule_set stg lc exposure st Hno) as (self & st' & Hr & _).
    by exists self, st'.
Qed.

(** * The caller's records *)

(** C9, as stated, fails: construction raises the lock flag of a player the
    exposure dictionary locks. *)
Lemma construction_sets_lock_flag :
  let st := mkState heap_plain Solver_new in
  let r := init [0; 1]%nat classic_rules None no_lineup_constraints
             (Some exposure_lock_A) st in
  lock (heap st 0%nat) = false ∧ lock (heap r.2 0%nat) = true.
Proof. by vm_compute. Qed.

(** C9, amended: construction leaves every player record as it was or
    resolved, that is, with all fields unchanged except that the lock flag
    is raised when the player resolves to locked and the ban flag when it
    resolves to banned; records outside the pool are untouched, no flag is
    ever cleared, and after a successful construction every pool player
    carries its resolved flags.  Solving changes no player record. *)
Theorem player_records_frame (ps : list loc) (rule_set : RuleSet)
    (stg : option OptimizerSettings) (lc : LineupConstraints)
    (exposure : option ExposureDct) (st : State)
    (Solve : Solver → ResultStatus) (self : Optimizer) (st2 : State) (l : loc) :
  (same_but_flags (heap (init ps rule_set stg lc exposure st).2 l) (heap st l) ∧
   (lock (heap st l) = true →
    lock (heap (init ps rule_set stg lc exposure st).2 l) = true) ∧
   (ban (heap st l) = true →
    ban (heap (init ps rule_set stg lc exposure st).2 l) = true) ∧
   (l ∉ ps → heap (init ps rule_set stg lc exposure st).2 l = heap st l) ∧
   (heap (init ps rule_set stg lc exposure st).2 l = heap st l ∨
    heap (init ps rule_set stg lc exposure st).2 l =
      resolve lc (exposure_locked exposure) (exposure_banned exposure) (heap st l)) ∧
   (l ∈ ps → succeeded (init ps rule_set stg lc exposure st).1 →
    lock (heap (init ps rule_set stg lc exposure st).2 l) =
      _is_locked lc (exposure_locked exposure) (heap st l) ∧
    ban (heap (init ps rule_set stg lc exposure st).2 l) =
      _is_banned lc (exposure_banned exposure) (heap st l))) ∧
  heap (solve Solve self st2).2 = heap st2.
Proof.
  split; [|apply keeps_solve].
  destruct (init_frame ps rule_set stg lc exposure st) as [_ Hh].
  cbn zeta in Hh. destruct (Hh l) as [Hout Hcase].
  assert (Hres := resolve_same lc (exposure_locked exposure)
                    (exposure_banned exposure) (heap st l)).
  split; [|split; [|split; [|split; [done|split; [done|]]]]].
  - destruct Hcase as [-> | ->]; [by repeat split | done].
  - intros Hl. destruct Hcase as [-> | ->]; [done|].
    rewrite lock_resolve. unfold _is_locked. rewrite Hl.
    by destruct (is_locked lc _), (py_in _ _).
  - intros Hb. destruct Hcase as [-> | ->]; [done|].
    rewrite ban_resolve. unfold _is_banned. rewrite Hb.
    by destruct (is_banned lc _), (py_in _ _).
  - intros Hin Hok.
    destruct (init ps rule_set stg lc exposure st) as [[self'|e] st'] eqn:Hinit;
      [|done].
    pose proof (init_ok_inv ps rule_set stg lc exposure st self' st' Hinit) as Hno.
    destruct (init_ok ps rule_set stg lc exposure st Hno)
      as (self'' & st'' & Hr & _ & _ & _ & _ & _ & Hheap).
    rewrite Hinit in Hr. injection Hr as <- <-. cbn [snd].
    rewrite Hheap, decide_True by done.
    by rewrite lock_resolve, ban_resolve.
Qed.

(** * Per-player bound constraints *)

Lemma alter_snoc {A} (f : A → A) (l : list A) x :
  alter f (length l) (l ++ [x]) = l ++ [f x].
Proof.
  induction l as [|a l IH]; [done|]. cbn. by rewrite <- IH.
Qed.

Lemma bounds_consistent p :
  (lock p && ban p)%bool = false ↔ lower_bound p ≤ upper_bound p.
Proof. unfold lower_bound, upper_bound. destruct (lock p), (ban p); cbn; split; (done || lia). Qed.

(** One turn of the loop, on a player with consistent bounds. *)
Lemma player_constraint_run self mc i l st :
  variable self i = ret i →
  (lock (heap st l) && ban (heap st l))%bool = false →
  player_constraint self mc (i, l) st =
    (Ok (bound_step self (heap st) (mc, solver_constraints (solver st)) (i, l)).1,
     mkState (heap st)
       (with_constraints
          (bound_step self (heap st) (mc, solver_constraints (solver st)) (i, l)).2
          (solver st))).
Proof.
  intros Hv Hc. unfold player_constraint, bound_step, shares_constraint, bound_row,
    lower_bound, upper_bound.
  mstep. rewrite Hv.
  destruct (lock (heap st l)), (ban (heap st l)); try done; cbn;
    destruct (multi_position (heap st l) || showdown self && captain (heap st l))%bool;
    cbn; try destruct (mc !! name (heap st l)) eqn:E;
    repeat (progress (unfold bind, ret, Constraint, push_constraint, get_solver,
                        modify_solver, SetCoefficient; cbn;
                      rewrite ?E, ?lookup_insert_eq));
    unfold with_constraints; cbn; rewrite ?alter_snoc; cbn;
    rewrite ?insert_empty; reflexivity.
Qed.

(** The whole loop, on a pool with consistent bounds. *)
Lemma player_constraints_loop self h enum : ∀ mc st,
  heap st = h →
  (∀ i l, (i, l) ∈ enum →
          variable self i = ret i ∧ (lock (h l) && ban (h l))%bool = false) →
  for_fold enum (player_constraint self) mc st =
    (Ok (foldl (bound_step self h) (mc, solver_constraints (solver st)) enum).1,
     mkState h
       (with_constraints
          (foldl (bound_step self h) (mc, solver_constraints (solver st)) enum).2
          (solver st))).
Proof.
  induction enum as [|[i l] enum IH]; intros mc st Hh Hall.
  - cbn. unfold with_constraints. rewrite Solver_eta, <- Hh. by rewrite State_eta.
  - cbn [for_fold foldl]. destruct (Hall i l) as [Hv Hc]; [left|].
    rewrite bind_run, player_constraint_run by (by rewrite ?Hh).
    rewrite IH; [|done|intros; apply Hall; by right].
    rewrite Hh. cbn. by destruct (bound_step _ _ _ _).
Qed.

Section bound_invariant.
Context (self : Optimizer) (h : loc → Player).

Lemma first_sharing_snoc nm done x y :
  first_sharing self h nm done x → first_sharing self h nm (done ++ [y]) x.
Proof.
  intros (pre & post & -> & Hs & Hn & Hpre).
  exists pre, (post ++ [y]). by rewrite <- app_assoc.
Qed.

Lemma bound_inv_nil cs : bound_inv self h [] (∅, cs).
Proof.
  split; [|split].
  - intros nm c Hc. cbn in Hc. by rewrite lookup_empty in Hc.
  - by intros y ?%elem_of_nil.
  - by intros y ?%elem_of_nil.
Qed.

Lemma bound_inv_step done acc x :
  bound_inv self h done acc →
  bound_inv self h (done ++ [x]) (bound_step self h acc x).
Proof.
  destruct acc as [mc cs]. intros (HA & HB & HC). cbn [fst snd] in HA, HB, HC.
  assert (Hlt : ∀ nm c, mc !! nm = Some c → (c < length cs)%nat).
  { intros nm c Hc. destruct (HA nm c Hc) as (x0 & co & _ & Hrow & _).
    by eapply lookup_lt_Some. }
  unfold bound_step. cbn [fst snd].
  destruct (shares_constraint self (h x.2)) eqn:Hs;
    [destruct (mc !! name (h x.2)) as [c1|] eqn:Hmc|].
  - (* joins the row registered under its name *)
    split; [|split]; cbn [fst snd].
    + intros nm c Hc. destruct (HA nm c Hc) as (x0 & co & Hf & Hrow & Hco).
      destruct (decide (c = c1)) as [->|Hne].
      * exists x0, (<[x.1 := 1]> co). split; [by apply first_sharing_snoc|].
        split; [by rewrite list_lookup_alter_eq, Hrow|].
        intros y [Hy | ->%list_elem_of_singleton]%elem_of_app Hsy Hny.
        -- destruct (decide (y.1 = x.1)) as [->|];
             [apply lookup_insert_eq | rewrite lookup_insert_ne by done; auto].
        -- apply lookup_insert_eq.
      * exists x0, co. split; [by apply first_sharing_snoc|].
        split; [by rewrite list_lookup_alter_ne|].
        intros y [Hy | ->%list_elem_of_singleton]%elem_of_app Hsy Hny; [auto|].
        subst nm. congruence.
    + intros y [Hy | ->%list_elem_of_singleton]%elem_of_app Hsy; [auto|].
      by rewrite Hmc.
    + intros y [Hy | ->%list_elem_of_singleton]%elem_of_app Hsy; [|congruence].
      destruct (HC y Hy Hsy) as (c & Hrow & Hfree). exists c. split; [|done].
      rewrite list_lookup_alter_ne; [done|]. intros ->. by apply (Hfree _ Hmc).
  - (* first of its name: a new row, registered *)
    split; [|split]; cbn [fst snd].
    + intros nm c Hc.
      destruct (decide (nm = name (h x.2))) as [->|Hne].
      * rewrite lookup_insert_eq in Hc. injection Hc as <-.
        exists x, {[ x.1 := 1 ]}. split; [|split].
        -- exists done, []. repeat split; [done..|].
           intros y Hy [Hsy Hny]. destruct (HB y Hy Hsy) as [c Hc].
           rewrite Hny in Hc. congruence.
        -- by rewrite lookup_app_r, Nat.sub_diag.
        -- intros y [Hy | ->%list_elem_of_singleton]%elem_of_app Hsy Hny;
             [|apply lookup_singleton_eq].
           destruct (HB y Hy Hsy) as [c Hc]. rewrite Hny in Hc. congruence.
      * rewrite lookup_insert_ne in Hc by done.
        destruct (HA nm c Hc) as (x0 & co & Hf & Hrow & Hco).
        exists x0, co. split; [by apply first_sharing_snoc|].
        split; [by apply lookup_app_l_Some|].
        intros y [Hy | ->%list_elem_of_singleton]%elem_of_app Hsy Hny; [auto|].
        congruence.
    + intros y [Hy | ->%list_elem_of_singleton]%elem_of_app Hsy.
      * destruct (HB y Hy Hsy) as [c Hc].
        destruct (decide (name (h x.2) = name (h y.2))) as [E|];
          [rewrite <- E in Hc; congruence|].
        rewrite lookup_insert_ne by done. eauto.
      * rewrite lookup_insert_eq. eauto.
    + intros y [Hy | ->%list_elem_of_singleton]%elem_of_app Hsy; [|congruence].
      destruct (HC y Hy Hsy) as (c & Hrow & Hfree). exists c.
      split; [by apply lookup_app_l_Some|].
      intros nm. destruct (decide (nm = name (h x.2))) as [->|].
      * rewrite lookup_insert_eq. intros [= <-].
        apply lookup_lt_Some in Hrow. lia.
      * rewrite lookup_insert_ne by done. apply Hfree.
  - (* a row of its own *)
    split; [|split]; cbn [fst snd].
    + intros nm c Hc. destruct (HA nm c Hc) as (x0 & co & Hf & Hrow & Hco).
      exists x0, co. split; [by apply first_sharing_snoc|].
      split; [by apply lookup_app_l_Some|].
      intros y [Hy | ->%list_elem_of_singleton]%elem_of_app Hsy Hny; [auto|].
      congruence.
    + intros y [Hy | ->%list_elem_of_singleton]%elem_of_app Hsy; [auto|].
      congruence.
    + intros y [Hy | ->%list_elem_of_singleton]%elem_of_app Hsy.
      * destruct (HC y Hy Hsy) as (c & Hrow & Hfree). exists c.
        split; [by apply lookup_app_l_Some | done].
      * exists (length cs). split; [by rewrite lookup_app_r, Nat.sub_diag|].
        intros nm Hc. apply Hlt in Hc. lia.
Qed.

Lemma bound_inv_foldl todo : ∀ done acc,
  bound_inv self h done acc →
  bound_inv self h (done ++ todo) (foldl (bound_step self h) acc todo).
Proof.
  induction todo as [|x todo IH]; intros done acc Hinv.
  - by rewrite app_nil_r.
  - cbn [foldl].
    replace (done ++ x :: todo) with ((done ++ [x]) ++ todo)
      by (by rewrite <- app_assoc).
    by apply IH, bound_inv_step.
Qed.

End bound_invariant.

(** [_set_player_constraints] on a pool whose players all have consistent
    flags: it succeeds, touches only the constraints, and establishes
    [bound_inv] for the whole pool. *)
Lemma set_player_constraints_run self st :
  wf self →
  (∀ l, l ∈ players self → (lock (heap st l) && ban (heap st l))%bool = false) →
  ∃ mc cs,
    _set_player_constraints self st =
      (Ok tt, mkState (heap st) (with_constraints cs (solver st))) ∧
    bound_inv self (heap st) (enumerated_players self) (mc, cs).
Proof.
  intros Hwf Hflags.
  pose proof (player_constraints_loop self (heap st) (enumerated_players self)
                ∅ st eq_refl) as Hloop.
  unfold _set_player_constraints. rewrite bind_run, Hloop.
  - pose proof (bound_inv_foldl self (heap st) (enumerated_players self) []
                  (∅, solver_constraints (solver st))
                  (bound_inv_nil self (heap st) _)) as Hinv.
    cbn [app] in Hinv.
    destruct (foldl _ _ _) as [mc cs]. by exists mc, cs.
  - intros i l Hin. split; [by eapply wf_variable|].
    by eapply Hflags, wf_player.
Qed.

(** After a successful construction no pool player has both flags. *)
Lemma init_flags_consistent ps rule_set stg lc exposure st0 self st :
  init ps rule_set stg lc exposure st0 = (Ok self, st) →
  wf self ∧ players self = ps ∧
  ∀ l, l ∈ ps →
    lock (heap st l) = _is_locked lc (exposure_locked exposure) (heap st0 l) ∧
    ban (heap st l) = _is_banned lc (exposure_banned exposure) (heap st0 l) ∧
    same_but_flags (heap st l) (heap st0 l) ∧
    (lock (heap st l) && ban (heap st l))%bool = false.
Proof.
  intros Hinit.
  pose proof (init_ok_inv ps rule_set stg lc exposure st0 self st Hinit) as Hno.
  destruct (init_ok ps rule_set stg lc exposure st0 Hno)
    as (self' & st' & Hr & Hwf & Hps & _ & _ & _ & Hheap).
  rewrite Hinit in Hr. injection Hr as <- <-.
  split; [done|]. split; [done|]. intros l Hl.
  rewrite Hheap, decide_True by done.
  rewrite lock_resolve, ban_resolve.
  split; [done|]. split; [done|]. split; [apply resolve_same|].
  apply Hno, Hl.
Qed.

(** C8: after a construction that raised no [PlayerBanAndLockException],
    and with the player records as construction left them, every pool
    player has lower bound at most upper bound, and
    [_set_player_constraints] returns without raising: the
    [InvalidBoundsException] branch is not taken. *)
Theorem invalid_bounds_unreachable (ps : list loc) (rule_set : RuleSet)
    (stg : option OptimizerSettings) (lc : LineupConstraints)
    (exposure : option ExposureDct) (st0 : State) (self : Optimizer)
    (st : State) :
  init ps rule_set stg lc exposure st0 = (Ok self, st) →
  (∀ l, l ∈ ps → lower_bound (heap st l) ≤ upper_bound (heap st l)) ∧
  (∃ st', _set_player_constraints self st = (Ok tt, st')) ∧
  (_set_player_constraints self st).1 ≠ Raised InvalidBoundsException.
Proof.
  intros Hinit.
  destruct (init_flags_consistent _ _ _ _ _ _ _ _ Hinit) as (Hwf & Hps & Hfl).
  assert (Hc : ∀ l, l ∈ players self →
                    (lock (heap st l) && ban (heap st l))%bool = false).
  { rewrite Hps. intros l Hl. by destruct (Hfl l Hl) as (_ & _ & _ & ?). }
  destruct (set_player_constraints_run self st Hwf Hc) as (mc & cs & Hrun & _).
  split; [|split].
  - intros l Hl. apply bounds_consistent, Hc. by rewrite Hps.
  - eauto.
  - by rewrite Hrun.
Qed.

Lemma invalid_bounds_unreachable_witness :
  (∀ l, l ∈ [0; 1; 2]%nat →
        lower_bound (heap showdown_run.2 l) ≤ upper_bound (heap showdown_run.2 l)) ∧
  (∃ st', _set_player_constraints (constructed showdown_run) showdown_run.2
          = (Ok tt, st')) ∧
  (_set_player_constraints (constructed showdown_run) showdown_run.2).1
    ≠ Raised InvalidBoundsException.
Proof.
  apply (invalid_bounds_unreachable [0; 1; 2]%nat showdown_rules None
           no_lineup_constraints None (mkState heap_showdown Solver_new)).
  reflexivity.
Defined.




(** * Loops that build rows *)

Lemma set_ones_lookup vs : ∀ co v,
  set_ones vs co !! v = if decide (v ∈ vs) then Some 1 else co !! v.
Proof.
  unfold set_ones. induction vs as [|a vs IH]; intros co v; cbn [foldl].
  - rewrite decide_False; [done | apply not_elem_of_nil].
  - rewrite IH. destruct (decide (v ∈ vs)) as [Hin|Hnin].
    + rewrite decide_True; [done | by right].
    + destruct (decide (v = a)) as [->|Hne].
      * rewrite lookup_insert_eq, decide_True; [done | left].
      * rewrite lookup_insert_ne by done.
        rewrite decide_False; [done|]. intros [?|?]%elem_of_cons; done.
Qed.

(** A loop whose turns each set one coefficient, or none, in the row most
    recently created. *)
Lemma fill_ones_loop {A} (xs : list A) body (sel : A → option nat) cs b h :
  ∀ co st,
  heap st = h →
  solver_constraints (solver st) = cs ++ [Row b co] →
  (∀ x st', x ∈ xs → heap st' = h →
     body x st' = match sel x with
                  | Some v => SetCoefficient (length cs) v 1 st'
                  | None => (Ok tt, st')
                  end) →
  for_each xs body st =
    (Ok tt, mkState h (with_constraints
                         (cs ++ [Row b (set_ones (omap sel xs) co)])
                         (solver st))).
Proof.
  induction xs as [|x xs IH]; intros co st Hh Hcs Hbody.
  - cbn. unfold with_constraints. by rewrite <- Hcs, Solver_eta, <- Hh, State_eta.
  - rewrite for_each_cons, Hbody by (done || left).
    change (omap sel (x :: xs))
      with (match sel x with
            | Some v => v :: omap sel xs
            | None => omap sel xs
            end).
    destruct (sel x) as [v|] eqn:Hsel.
    + rewrite SetCoefficient_run.
      rewrite (IH (<[v := 1]> co)).
      * by rewrite Hh.
      * done.
      * cbn. by rewrite Hcs, alter_snoc.
      * intros; apply Hbody; [by right | done].
    + apply IH; [done..|]. intros; apply Hbody; [by right | done].
Qed.

(** A loop whose turns each append constraints to the solver. *)
Lemma append_loop {A} (xs : list A) body (g : A → list MPConstraint) h :
  ∀ st,
  heap st = h →
  (∀ x st', x ∈ xs → heap st' = h →
     body x st' = (Ok tt, mkState h (add_constraints (g x) (solver st')))) →
  for_each xs body st =
    (Ok tt, mkState h (add_constraints (concat (g <$> xs)) (solver st))).
Proof.
  induction xs as [|x xs IH]; intros st Hh Hbody.
  - cbn. by rewrite add_constraints_nil, <- Hh, State_eta.
  - rewrite for_each_cons, Hbody by (done || left).
    rewrite IH; [|done|intros; apply Hbody; [by right | done]].
    cbn. by rewrite add_constraints_app.
Qed.

Lemma Constraint_then {A} args (k : nat → M A) st :
  bind (Constraint args) k st =
  k (length (solver_constraints (solver st)))
    (mkState (heap st) (add_constraints [Row args ∅] (solver st))).
Proof. reflexivity. Qed.

Lemma with_constraints_added cs b co s :
  solver_constraints s = cs →
  with_constraints (cs ++ [Row b co]) (add_constraints [Row b ∅] s) =
  add_constraints [Row b co] s.
Proof. intros <-. reflexivity. Qed.

Lemma concat_singletons {A B} (f : A → B) (l : list A) :
  concat ((λ x, [f x]) <$> l) = f <$> l.
Proof. induction l as [|x l IH]; [done|]. cbn. by rewrite IH. Qed.

Lemma wf_index_variable self k i :
  wf self → player_to_idx_map self !! k = Some i → variable self i = ret i.
Proof.
  intros Hwf Hk. apply wf_variable_lt; [done|].
  destruct Hwf as (_ & _ & Hp & _). by apply (Hp k).
Qed.


(** * No duplicate lineups *)

Lemma set_no_duplicate_lineups_run self st :
  wf self →
  _set_no_duplicate_lineups self st =
    (Ok tt,
     mkState (heap st)
       (add_constraints (roster_row self (heap st) <$> existing_rosters self)
          (solver st))).
Proof.
  intros Hwf. unfold _set_no_duplicate_lineups.
  rewrite (append_loop _ _ (λ r, [roster_row self (heap st) r]) (heap st));
    [by rewrite concat_singletons | done |].
  intros roster st' _ Hh. rewrite Constraint_then.
  rewrite (fill_ones_loop _ _ (pool_index self (heap st))
             (solver_constraints (solver st'))
             [Some 0; Some (max_repeats self)] (heap st) ∅).
  - cbn [solver]. by rewrite with_constraints_added.
  - done.
  - reflexivity.
  - intros l st'' _ Hh''. unfold pool_index. mstep. rewrite Hh''.
    destruct (player_to_idx_map self !! solver_id (heap st l)) as [i|] eqn:Hi;
      [|done].
    by rewrite (wf_index_variable self _ i Hwf Hi).
Qed.

(** C5: [_set_no_duplicate_lineups] succeeds and appends exactly one row per
    existing roster, in order.  The row of a roster is bounded by
    [0, roster_size - 1] when no uniques setting is configured (the setting
    is [None] or 0, which the code does not tell apart), and by
    [0, max(roster_size - uniques, 1)] when one is; its coefficient is 1 on
    the variable of each roster player found in the pool by solver id, and
    no other variable has a coefficient, so roster players absent from the
    pool contribute none. *)
Theorem no_duplicate_lineups (self : Optimizer) (st : State) :
  wf self →
  ∃ st' rows,
    _set_no_duplicate_lineups self st = (Ok tt, st') ∧
    heap st' = heap st ∧
    solver_constraints (solver st') = solver_constraints (solver st) ++ rows ∧
    Forall2
      (λ roster row,
         ∃ bound co,
           row = Row [Some 0; Some bound] co ∧
           (truthy (uniques (settings self)) = false →
            bound = roster_size self - 1) ∧
           (∀ u, uniques (settings self) = Some u → u ≠ 0 →
                 bound = Z.max (roster_size self - u) 1) ∧
           ∀ v,
             (co !! v = Some 1 ∧
              ∃ l, l ∈ sorted_players roster ∧
                   player_to_idx_map self !! solver_id (heap st l) = Some v) ∨
             (co !! v = None ∧
              ¬ ∃ l, l ∈ sorted_players roster ∧
                     player_to_idx_map self !! solver_id (heap st l) = Some v))
      (existing_rosters self) rows.
Proof.
  intros Hwf. eexists _, _.
  split; [by apply set_no_duplicate_lineups_run|].
  split; [done|]. split; [done|].
  apply Forall2_fmap_r, Forall_Forall2_diag, Forall_forall.
  intros roster _. eexists _, _. split; [reflexivity|].
  unfold max_repeats. split; [by intros ->|]. split.
  - intros u Hu Hne. rewrite Hu. cbn.
    by destruct (u =? 0) eqn:E; [apply Z.eqb_eq in E|].
  - intros v. rewrite set_ones_lookup, lookup_empty.
    destruct (decide (v ∈ omap (pool_index self (heap st)) (sorted_players roster)))
      as [Hin|Hnin]; [left | right]; (split; [done|]).
    + apply list_elem_of_omap in Hin as (l & Hl & Hv). by exists l.
    + intros (l & Hl & Hv). apply Hnin, list_elem_of_omap. by exists l.
Qed.

Lemma no_duplicate_lineups_witness :
  ∃ st' rows,
    _set_no_duplicate_lineups (constructed uniques_run) uniques_run.2 = (Ok tt, st') ∧
    heap st' = heap uniques_run.2 ∧
    solver_constraints (solver st') =
      solver_constraints (solver uniques_run.2) ++ rows ∧
    Forall2
      (λ roster row,
         ∃ bound co,
           row = Row [Some 0; Some bound] co ∧
           (truthy (uniques (settings (constructed uniques_run))) = false →
            bound = roster_size (constructed uniques_run) - 1) ∧
           (∀ u, uniques (settings (constructed uniques_run)) = Some u → u ≠ 0 →
                 bound = Z.max (roster_size (constructed uniques_run) - u) 1) ∧
           ∀ v,
             (co !! v = Some 1 ∧
              ∃ l, l ∈ sorted_players roster ∧
                   player_to_idx_map (constructed uniques_run)
                     !! solver_id (heap uniques_run.2 l) = Some v) ∨
             (co !! v = None ∧
              ¬ ∃ l, l ∈ sorted_players roster ∧
                     player_to_idx_map (constructed uniques_run)
                       !! solver_id (heap uniques_run.2 l) = Some v))
      (existing_rosters (constructed uniques_run)) rows.
Proof.
  apply (no_duplicate_lineups (constructed uniques_run) uniques_run.2).
  unfold wf. compute_done.
Defined.

(** * Group constraints *)




(** The two example groups: exact count 0 falls back on the bounds (1, 2),
    exact count 1 gives (1, 1). *)
Example group_rows_example :
  solver_constraints
    (solver (_set_player_group_constraints (constructed groups_run)
               groups_run.2).2) =
  [Row [Some 1; Some 2] {[ 0%nat := 1; 1%nat := 1 ]};
   Row [Some 1; Some 1] {[ 0%nat := 1 ]}].
Proof. by vm_compute. Qed.

(** The example roster: the bound is max(2 - 3, 1) = 1, and only the pool
    player has a coefficient. *)
Example roster_row_example :
  solver_constraints
    (solver (_set_no_duplicate_lineups (constructed uniques_run)
               uniques_run.2).2) =
  [Row [Some 0; Some 1] {[ 0%nat := 1 ]}].
Proof. by vm_compute. Qed.

(** * Combo *)

(** The variables of the players of a team that satisfy a condition, read
    off a well-formed optimizer. *)
Lemma team_vars_run self (P : Player → bool) t cond st :
  wf self →
  (∀ i l, cond (i, l) st =
          (Ok (String.eqb (team (heap st l)) t && P (heap st l))%bool, st)) →
  comprehension (enumerated_players self) cond (λ '(i, l), variable self i) st =
    (Ok (team_vars self (heap st) P t), st).
Proof.
  intros Hwf Hcond. unfold team_vars.
  apply (comprehension_run _ _ _
           (λ ip, (String.eqb (team (heap st ip.2)) t && P (heap st ip.2))%bool) fst).
  - intros [i l] _. apply Hcond.
  - intros [i l] Hin _. by rewrite (wf_variable self i l Hwf Hin).
Qed.

Lemma elem_of_team_vars self h P t v :
  wf self →
  v ∈ team_vars self h P t ↔
  ∃ l, players self !! v = Some l ∧ team (h l) = t ∧ P (h l) = true.
Proof.
  intros (He & _). unfold team_vars. rewrite He, list_elem_of_fmap. split.
  - intros ([i l] & -> & Hin). apply list_elem_of_filter in Hin as [Hc Hin].
    apply elem_of_enumerate in Hin. apply andb_true_iff in Hc as [Ht HP].
    apply String.eqb_eq in Ht. by exists l.
  - intros (l & Hl & Ht & HP). exists (v, l). split; [done|].
    apply list_elem_of_filter. split; [|by apply elem_of_enumerate].
    cbn. rewrite HP, andb_true_r. by apply String.eqb_eq.
Qed.

Lemma combo_skill_spec self p :
  combo_skill self p = true ↔
  pass_catcher (combo_allow_te (settings self)) (pos p).
Proof.
  unfold combo_skill, pass_catcher, py_in. rewrite bool_decide_eq_true.
  destruct (combo_allow_te (settings self)); cbn; set_solver.
Qed.

Lemma is_qb_spec p : is_qb p = true ↔ pos p = "QB".
Proof. apply String.eqb_eq. Qed.

Lemma set_combo_run self st :
  wf self →
  _set_combo self st =
    (Ok tt,
     mkState (heap st)
       (add_constraints
          (if force_combo (settings self)
           then combo_constraint self (heap st) <$> pool_teams self (heap st)
           else [])
          (solver st))).
Proof.
  intros Hwf. unfold _set_combo.
  destruct (force_combo (settings self));
    [|by cbn; rewrite add_constraints_nil, State_eta].
  rewrite bind_run, player_teams_run.
  rewrite (append_loop _ _ (λ t, [combo_constraint self (heap st) t]) (heap st));
    [by rewrite concat_singletons | done |].
  intros t st' _ Hh.
  rewrite bind_run, (team_vars_run self (combo_skill self) t) by (done || by intros).
  rewrite bind_run, (team_vars_run self is_qb t) by (done || by intros).
  by rewrite Add_run, Hh.
Qed.

(** C7: with the combo rule enabled, [_set_combo] succeeds and adds, for
    each team of the pool exactly once, the constraint that the sum of that
    team's pass-catcher variables be at least the sum of its quarterback
    variables; a pass-catcher is a player at WR, or at TE when
    [combo_allow_te] is set, and at no other position.  With the rule
    disabled nothing is added. *)
Theorem combo_constraints (self : Optimizer) (st : State) :
  wf self →
  ∃ st' ts,
    _set_combo self st = (Ok tt, st') ∧
    heap st' = heap st ∧
    (force_combo (settings self) = false →
     solver_constraints (solver st') = solver_constraints (solver st)) ∧
    (force_combo (settings self) = true →
     solver_constraints (solver st') =
       solver_constraints (solver st) ++
       ((λ t, Ge (LSum (team_vars self (heap st) (combo_skill self) t))
                 (LSum (team_vars self (heap st) is_qb t))) <$> ts)) ∧
    NoDup ts ∧
    (∀ t, t ∈ ts ↔ ∃ l, l ∈ players self ∧ team (heap st l) = t) ∧
    (∀ t v, v ∈ team_vars self (heap st) (combo_skill self) t ↔
            ∃ l, players self !! v = Some l ∧ team (heap st l) = t ∧
                 pass_catcher (combo_allow_te (settings self)) (pos (heap st l))) ∧
    (∀ t v, v ∈ team_vars self (heap st) is_qb t ↔
            ∃ l, players self !! v = Some l ∧ team (heap st l) = t ∧
                 pos (heap st l) = "QB").
Proof.
  intros Hwf. exists (_set_combo self st).2, (pool_teams self (heap st)).
  rewrite set_combo_run by done. cbn [snd heap solver].
  split; [done|]. split; [done|].
  split; [intros ->; cbn; by rewrite app_nil_r|].
  split; [by intros ->|].
  split; [apply NoDup_elements|]. split; [|split].
  - intros t. unfold pool_teams.
    rewrite elem_of_elements, elem_of_list_to_set, list_elem_of_fmap.
    split; [intros (l & -> & Hl) | intros (l & Hl & <-)]; by exists l.
  - intros t v. rewrite elem_of_team_vars by done.
    by setoid_rewrite combo_skill_spec.
  - intros t v. rewrite elem_of_team_vars by done.
    by setoid_rewrite is_qb_spec.
Qed.

Lemma combo_constraints_witness :
  ∃ st' ts,
    _set_combo (constructed combo_run) combo_run.2 = (Ok tt, st') ∧
    heap st' = heap combo_run.2 ∧
    (force_combo (settings (constructed combo_run)) = false →
     solver_constraints (solver st') = solver_constraints (solver combo_run.2)) ∧
    (force_combo (settings (constructed combo_run)) = true →
     solver_constraints (solver st') =
       solver_constraints (solver combo_run.2) ++
       ((λ t, Ge (LSum (team_vars (constructed combo_run) (heap combo_run.2)
                          (combo_skill (constructed combo_run)) t))
                 (LSum (team_vars (constructed combo_run) (heap combo_run.2)
                          is_qb t))) <$> ts)) ∧
    NoDup ts ∧
    (∀ t, t ∈ ts ↔ ∃ l, l ∈ players (constructed combo_run) ∧
                        team (heap combo_run.2 l) = t) ∧
    (∀ t v, v ∈ team_vars (constructed combo_run) (heap combo_run.2)
                  (combo_skill (constructed combo_run)) t ↔
            ∃ l, players (constructed combo_run) !! v = Some l ∧
                 team (heap combo_run.2 l) = t ∧
                 pass_catcher (combo_allow_te (settings (constructed combo_run)))
                   (pos (heap combo_run.2 l))) ∧
    (∀ t v, v ∈ team_vars (constructed combo_run) (heap combo_run.2) is_qb t ↔
            ∃ l, players (constructed combo_run) !! v = Some l ∧
                 team (heap combo_run.2 l) = t ∧
                 pos (heap combo_run.2 l) = "QB").
Proof.
  apply (combo_constraints (constructed combo_run) combo_run.2).
  unfold wf. compute_done.
Defined.

(** The example pool: team X has receiver 1 and quarterback 0, team Y has
    neither; the set of teams happens to be iterated Y first. *)
Example combo_rows_example :
  solver_constraints (solver (_set_combo (constructed combo_run) combo_run.2).2) =
  [Ge (LSum []) (LSum []); Ge (LSum [1%nat]) (LSum [0%nat])].
Proof. by vm_compute. Qed.

(** * Anti-correlation *)

Lemma observer_for_each {A} (l : list A) body :
  (∀ x, observer (body x)) → observer (for_each l body).
Proof.
  intros Hb. induction l as [|x l IH]; [apply observer_ret|].
  cbn [for_each]. apply observer_bind; auto.
Qed.

(** Binding a comprehension that selects nothing. *)
Lemma observer_bind_empty {A B C} (l : list A) cond (f : A → M B)
    (k : list B → M C) :
  (∀ x, observer (cond x)) → (∀ x, observer (f x)) →
  (∀ x st, (cond x st).1 ≠ Ok true) →
  observer (k []) →
  observer (bind (comprehension l cond f) k).
Proof.
  intros Hc Hf Hnever Hk st. rewrite bind_run.
  pose proof (observer_comprehension l cond f Hc Hf st) as Hst.
  destruct (comprehension l cond f st) as [[ys|e] st1] eqn:E; cbn in Hst; subst st1;
    [|done].
  apply comprehension_none in E as ->; [apply Hk | done].
Qed.

Section anti_correlation.
Context (self : Optimizer).

Local Abbreviation use_showdown :=
  (no_defense_against_captain (settings self) && showdown self)%bool.

Local Abbreviation offensive_cond team_ :=
  (λ '((i, l) : nat * loc), p <- read l ;;
     in_off <- py_in_opt (pos p) (offensive_positions self) ;;
     ret (in_off && is_opposing_team_in_match_up p team_
          && use_showdown && captain p)%bool).

Local Abbreviation defensive_cond team_ :=
  (λ '((i, l) : nat * loc), p <- read l ;;
     if String.eqb (team p) team_
     then py_in_opt (pos p) (defensive_positions self)
     else ret false).

Lemma observer_offensive_cond team_ x : observer (offensive_cond team_ x).
Proof. destruct x. auto 10 with observe. Qed.

Lemma observer_defensive_cond team_ x : observer (defensive_cond team_ x).
Proof.
  destruct x. apply observer_bind; [apply observer_read|].
  intros p. destruct (String.eqb _ _); auto with observe.
Qed.

Lemma observer_variable_of x :
  observer ((λ '(i, l), variable self i) (x : nat * loc)).
Proof. destruct x. apply observer_variable. Qed.

(** No offensive player is selected unless the showdown toggle applies and
    the offensive positions are a non-empty list. *)
Lemma offensive_cond_never team_ x st :
  use_showdown = false ∨ truthy_list (offensive_positions self) = false →
  (offensive_cond team_ x st).1 ≠ Ok true.
Proof.
  destruct x as [i l]. intros H. mstep.
  destruct (offensive_positions self) as [[|o os]|]; cbn in *.
  - done.
  - destruct H as [-> | ?]; [|done]. cbn.
    by rewrite andb_false_r.
  - done.
Qed.

(** No defensive player is selected unless the defensive positions are a
    non-empty list. *)
Lemma defensive_cond_never team_ x st :
  truthy_list (defensive_positions self) = false →
  (defensive_cond team_ x st).1 ≠ Ok true.
Proof.
  destruct x as [i l]. intros H. mstep.
  destruct (String.eqb _ _); [|done].
  by destruct (defensive_positions self) as [[|o os]|].
Qed.

(** [_set_no_opp_defense] leaves the state alone unless the showdown toggle
    applies and both position sets are non-empty. *)
Lemma set_no_opp_defense_inert st :
  use_showdown = false ∨
  truthy_list (offensive_positions self) = false ∨
  truthy_list (defensive_positions self) = false →
  (_set_no_opp_defense self st).2 = st.
Proof.
  intros H. unfold _set_no_opp_defense.
  match goal with |- context [if ?c then _ else _] => destruct c end; [|done].
  revert st. apply observer_for_each. intros team_.
  destruct H as [H | [H | H]].
  - apply observer_bind_empty;
      [apply observer_offensive_cond | apply observer_variable_of
      | intros; apply offensive_cond_never; by left |].
    apply observer_bind; [|intros; apply observer_ret].
    apply observer_comprehension;
      [apply observer_defensive_cond | apply observer_variable_of].
  - apply observer_bind_empty;
      [apply observer_offensive_cond | apply observer_variable_of
      | intros; apply offensive_cond_never; by right |].
    apply observer_bind; [|intros; apply observer_ret].
    apply observer_comprehension;
      [apply observer_defensive_cond | apply observer_variable_of].
  - apply observer_bind;
      [apply observer_comprehension;
         [apply observer_offensive_cond | apply observer_variable_of]|].
    intros offensive_against.
    apply observer_bind_empty;
      [apply observer_defensive_cond | apply observer_variable_of
      | intros; by apply defensive_cond_never |].
    apply observer_for_each. intros p. apply observer_ret.
Qed.

(** In classic mode the family is inert, whatever the settings. *)
Lemma set_no_opp_defense_classic st :
  showdown self = false → (_set_no_opp_defense self st).2 = st.
Proof.
  intros Hs. apply set_no_opp_defense_inert. left. by rewrite Hs, andb_false_r.
Qed.

End anti_correlation.

(** C2: unless both position sets are non-empty and the toggle of the
    current game type is set, [_set_no_opp_defense] adds no constraint (it
    leaves the whole state as it found it).  In particular, in showdown mode
    with the showdown toggle set and an empty offensive or defensive
    position set, the constraints of the solver are unchanged. *)
Theorem anti_correlation_only_when_enabled (self : Optimizer) (st : State) :
  anti_correlation_enabled self = false →
  (_set_no_opp_defense self st).2 = st ∧
  (showdown self = true → no_defense_against_captain (settings self) = true →
   solver_constraints (solver (_set_no_opp_defense self st).2) =
   solver_constraints (solver st)).
Proof.
  intros Hen.
  assert (E : (_set_no_opp_defense self st).2 = st); [|by rewrite E].
  unfold anti_correlation_enabled in Hen.
  destruct (showdown self) eqn:Hs; [|by apply set_no_opp_defense_classic].
  apply set_no_opp_defense_inert.
  destruct (truthy_list (offensive_positions self)); [|by right; left].
  destruct (truthy_list (defensive_positions self)); [|by right; right].
  left. cbn in Hen. by rewrite Hen.
Qed.

Lemma anti_correlation_only_when_enabled_witness :
  (_set_no_opp_defense (constructed showdown_no_defense_run)
     showdown_no_defense_run.2).2 = showdown_no_defense_run.2 ∧
  (showdown (constructed showdown_no_defense_run) = true →
   no_defense_against_captain (settings (constructed showdown_no_defense_run))
     = true →
   solver_constraints
     (solver (_set_no_opp_defense (constructed showdown_no_defense_run)
                showdown_no_defense_run.2).2) =
   solver_constraints (solver showdown_no_defense_run.2)).
Proof.
  apply (anti_correlation_only_when_enabled
           (constructed showdown_no_defense_run) showdown_no_defense_run.2).
  reflexivity.
Defined.

(** In showdown mode with the toggle set and both position sets non-empty
    the family does add constraints: the captain A against the defence of
    the team it faces. *)
Example showdown_anti_correlation_example :
  anti_correlation_enabled (constructed showdown_anti_run) = true ∧
  solver_constraints
    (solver (_set_no_opp_defense (constructed showdown_anti_run)
               showdown_anti_run.2).2) =
  [Le (LVar 0) (LSub (LConst 1) (LVar 2))].
Proof. by vm_compute. Qed.

(** C1 fails on the code.  Classic game type, both position sets non-empty,
    [no_offense_against_defense] set; player 0 is at an offensive position
    and faces team Y, player 2 is at a defensive position on team Y: the
    claim requires the constraint [x0 <= 1 - x2], and
    [_set_no_opp_defense] adds no constraint at all, nor does the rest of
    [solve]. *)
Theorem classic_anti_correlation_missing :
  let self := constructed classic_anti_run in
  let st := classic_anti_run.2 in
  showdown self = false ∧
  no_offense_against_defense (settings self) = true ∧
  truthy_list (offensive_positions self) = true ∧
  truthy_list (defensive_positions self) = true ∧
  py_in_opt (pos (heap st 0%nat)) (offensive_positions self) st = (Ok true, st) ∧
  is_opposing_team_in_match_up (heap st 0%nat) "Y" = true ∧
  team (heap st 2%nat) = "Y" ∧
  py_in_opt (pos (heap st 2%nat)) (defensive_positions self) st = (Ok true, st) ∧
  (_set_no_opp_defense self st).1 = Ok tt ∧
  solver_constraints (solver (_set_no_opp_defense self st).2) =
    solver_constraints (solver st) ∧
  Le (LVar 0) (LSub (LConst 1) (LVar 2))
    ∉ solver_constraints (solver (build_model self st).2).
Proof.
  cbn zeta. repeat (split; [by vm_compute|]).
  set (cs := solver_constraints _). vm_compute in cs. subst cs. intros Hin.
  repeat (apply elem_of_cons in Hin as [Hin|Hin]; [discriminate Hin|]).
  by apply elem_of_nil in Hin.
Qed.

(** * Single captain *)


(** C6 fails on the code.  On the showdown pool the captain row is created
    by [solver.Constraint(1)], with one positional argument: the row the
    solver receives carries the captain's variable and the argument 1 only,
    and no row with the bounds (1, 1) is ever created, by
    [_set_single_captain] or by any other part of [solve]. *)
Theorem single_captain_upper_bound_missing :
  let self := constructed showdown_run in
  let st := showdown_run.2 in
  showdown self = true ∧
  (_set_single_captain self st).1 = Ok tt ∧
  solver_constraints (solver (_set_single_captain self st).2) =
    solver_constraints (solver st) ++ [Row [Some 1] {[ 0%nat := 1 ]}] ∧
  ∀ co, Row [Some 1; Some 1] co
          ∉ solver_constraints (solver (build_model self st).2).
Proof.
  cbn zeta. repeat (split; [by vm_compute|]).
  intros co. set (cs := solver_constraints _). vm_compute in cs. subst cs.
  intros Hin.
  repeat (apply elem_of_cons in Hin as [Hin|Hin]; [discriminate Hin|]).
  by apply elem_of_nil in Hin.
Qed.

(** In classic mode [solve] does not run [_set_single_captain]: the model
    built on the classic pool has no row with a single positional
    argument. *)
Example classic_has_no_captain_row :
  showdown (constructed classic_anti_run) = false ∧
  ∀ x co, Row [x] co ∉ solver_constraints
                         (solver (build_model (constructed classic_anti_run)
                                    classic_anti_run.2).2).
Proof.
  split; [reflexivity|].
  intros x co. set (cs := solver_constraints _). vm_compute in cs. subst cs.
  intros Hin.
  repeat (apply elem_of_cons in Hin as [Hin|Hin]; [discriminate Hin|]).
  by apply elem_of_nil in Hin.
Qed.

(** * Further properties of the constraint families *)

Lemma set_coeffs_ones vs co :
  set_coeffs ((λ v, (v, 1)) <$> vs) co = set_ones vs co.
Proof.
  revert co. induction vs as [|v vs IH]; intros co; [done|].
  cbn. apply IH.
Qed.

Lemma set_coeffs_lookup_notin vcs : ∀ co v,
  v ∉ vcs.*1 → set_coeffs vcs co !! v = co !! v.
Proof.
  unfold set_coeffs. induction vcs as [|[a c] vcs IH]; intros co v Hv; [done|].
  cbn in *. apply not_elem_of_cons in Hv as [Hne Hv].
  rewrite IH by done. by rewrite lookup_insert_ne.
Qed.

Lemma set_coeffs_lookup_in vcs : ∀ co v c,
  NoDup vcs.*1 → (v, c) ∈ vcs → set_coeffs vcs co !! v = Some c.
Proof.
  unfold set_coeffs. induction vcs as [|[a c'] vcs IH]; intros co v c Hnd Hin.
  - by apply elem_of_nil in Hin.
  - cbn in *. apply NoDup_cons in Hnd as [Hna Hnd].
    apply elem_of_cons in Hin as [[= -> ->]|Hin].
    + pose proof (set_coeffs_lookup_notin vcs (<[a := c']> co) a Hna) as E.
      unfold set_coeffs in E. by rewrite E, lookup_insert_eq.
    + by apply IH.
Qed.

(** A loop whose turns each set one coefficient, or none, in the row most
    recently created. *)
Lemma fill_loop {A} (xs : list A) body (sel : A → option (nat * Z)) cs b h :
  ∀ co st,
  heap st = h →
  solver_constraints (solver st) = cs ++ [Row b co] →
  (∀ x st', x ∈ xs → heap st' = h →
     body x st' = match sel x with
                  | Some vc => SetCoefficient (length cs) vc.1 vc.2 st'
                  | None => (Ok tt, st')
                  end) →
  for_each xs body st =
    (Ok tt, mkState h (with_constraints
                         (cs ++ [Row b (set_coeffs (omap sel xs) co)])
                         (solver st))).
Proof.
  induction xs as [|x xs IH]; intros co st Hh Hcs Hbody.
  - cbn. unfold with_constraints. by rewrite <- Hcs, Solver_eta, <- Hh, State_eta.
  - rewrite for_each_cons, Hbody by (done || left).
    change (omap sel (x :: xs))
      with (match sel x with
            | Some v => v :: omap sel xs
            | None => omap sel xs
            end).
    destruct (sel x) as [[v c]|] eqn:Hsel.
    + rewrite SetCoefficient_run.
      rewrite (IH (<[v := c]> co)).
      * by rewrite Hh.
      * done.
      * cbn. by rewrite Hcs, alter_snoc.
      * intros; apply Hbody; [by right | done].
    + apply IH; [done..|]. intros; apply Hbody; [by right | done].
Qed.

Lemma elem_of_pool_vars self h P v :
  wf self →
  v ∈ pool_vars self h P ↔ ∃ l, players self !! v = Some l ∧ P (h l) = true.
Proof.
  intros (He & _). unfold pool_vars. rewrite He, list_elem_of_omap. split.
  - intros ([i l] & Hin & Hsel). cbn in Hsel.
    destruct (P (h l)) eqn:HP; [|done]. injection Hsel as ->.
    apply elem_of_enumerate in Hin. by exists l.
  - intros (l & Hl & HP). exists (v, l). cbn. rewrite HP.
    split; [by apply elem_of_enumerate | done].
Qed.

(** A row filled with coefficient 1 from the pool players that satisfy a
    condition read off the heap. *)
Lemma pool_row_loop self (P : Player → bool) b st
    (body : nat → nat * loc → M unit) :
  wf self →
  (∀ i l st', (i, l) ∈ enumerated_players self → heap st' = heap st →
     body (length (solver_constraints (solver st))) (i, l) st' =
       if P (heap st l)
       then SetCoefficient (length (solver_constraints (solver st))) i 1 st'
       else (Ok tt, st')) →
  bind (Constraint b) (λ c, for_each (enumerated_players self) (body c)) st =
    (Ok tt,
     mkState (heap st)
       (add_constraints [Row b (set_ones (pool_vars self (heap st) P) ∅)]
          (solver st))).
Proof.
  intros Hwf Hbody. rewrite Constraint_then.
  rewrite (fill_ones_loop _ _
             (λ ip : nat * loc, if P (heap st ip.2) then Some ip.1 else None)
             (solver_constraints (solver st)) b (heap st) ∅).
  - cbn [solver]. by rewrite with_constraints_added.
  - done.
  - reflexivity.
  - intros [i l] st' Hin Hh. rewrite Hbody by done. cbn [fst snd].
    by destruct (P (heap st l)).
Qed.

(** ** Position quotas *)

Lemma set_positions_run self st :
  wf self →
  _set_positions self st =
    (Ok tt,
     mkState (heap st)
       (add_constraints (limit_row self (heap st) pos <$> position_limits self)
          (solver st))).
Proof.
  intros Hwf. unfold _set_positions.
  rewrite (append_loop _ _ (λ lim, [limit_row self (heap st) pos lim]) (heap st));
    [by rewrite concat_singletons | done |].
  intros [[position min_limit] max_limit] st' _ Hh.
  rewrite (pool_row_loop self (λ p, String.eqb position (pos p))); [by rewrite Hh|done|].
  intros i l st'' Hin Hh''. mstep. rewrite Hh'', Hh.
  destruct (String.eqb position (pos (heap st l))); [|done].
  by rewrite (wf_variable self i l Hwf Hin).
Qed.

Lemma set_general_positions_run self st :
  wf self →
  _set_general_positions self st =
    (Ok tt,
     mkState (heap st)
       (add_constraints
          (limit_row self (heap st) nba_general_position
             <$> general_position_limits self)
          (solver st))).
Proof.
  intros Hwf. unfold _set_general_positions.
  rewrite (append_loop _ _
             (λ lim, [limit_row self (heap st) nba_general_position lim]) (heap st));
    [by rewrite concat_singletons | done |].
  intros [[position min_limit] max_limit] st' _ Hh.
  rewrite (pool_row_loop self (λ p, String.eqb position (nba_general_position p)));
    [by rewrite Hh|done|].
  intros i l st'' Hin Hh''. mstep. rewrite Hh'', Hh.
  destruct (String.eqb position (nba_general_position (heap st l))); [|done].
  by rewrite (wf_variable self i l Hwf Hin).
Qed.

Lemma pool_row_lookup self h P v :
  wf self →
  set_ones (pool_vars self h P) ∅ !! v =
    match players self !! v with
    | Some l => if P (h l) then Some 1 else None
    | None => None
    end.
Proof.
  intros Hwf. rewrite set_ones_lookup, lookup_empty.
  case_decide as Hin; rewrite elem_of_pool_vars in Hin by done.
  - destruct Hin as (l & -> & ->). done.
  - destruct (players self !! v) as [l|] eqn:Hl; [|done].
    destruct (P (h l)) eqn:HP; [|done]. destruct Hin. by exists l.
Qed.

(** X1: [_set_positions] succeeds and appends one row per position limit,
    in the order of the limits; the row of (position, min, max) is bounded
    by (min, max) and has coefficient 1 exactly on the variables of the pool
    players whose position is that position.  A position no player has gets
    a row without coefficients, and an empty list of limits adds nothing. *)
Theorem position_quota_rows (self : Optimizer) (st : State) :
  wf self →
  ∃ st' rows,
    _set_positions self st = (Ok tt, st') ∧
    heap st' = heap st ∧
    solver_vars (solver st') = solver_vars (solver st) ∧
    solver_constraints (solver st') = solver_constraints (solver st) ++ rows ∧
    Forall2
      (λ (lim : string * Z * Z) row,
         ∃ co, row = Row [Some lim.1.2; Some lim.2] co ∧
               ∀ v, co !! v =
                    match players self !! v with
                    | Some l =>
                        if String.eqb lim.1.1 (pos (heap st l))
                        then Some 1 else None
                    | None => None
                    end)
      (position_limits self) rows.
Proof.
  intros Hwf. eexists _, _.
  split; [by apply set_positions_run|].
  split; [done|]. split; [done|]. split; [done|].
  apply Forall2_fmap_r, Forall_Forall2_diag, Forall_forall.
  intros lim _. eexists. split; [reflexivity|].
  intros v. by apply pool_row_lookup.
Qed.

(** X2: [_set_general_positions] succeeds and appends one row per general
    position limit, in order, bounded by (min, max), with coefficient 1
    exactly on the pool players whose general position is the limit's. *)
Theorem general_position_quota_rows (self : Optimizer) (st : State) :
  wf self →
  ∃ st' rows,
    _set_general_positions self st = (Ok tt, st') ∧
    heap st' = heap st ∧
    solver_vars (solver st') = solver_vars (solver st) ∧
    solver_constraints (solver st') = solver_constraints (solver st) ++ rows ∧
    Forall2
      (λ (lim : string * Z * Z) row,
         ∃ co, row = Row [Some lim.1.2; Some lim.2] co ∧
               ∀ v, co !! v =
                    match players self !! v with
                    | Some l =>
                        if String.eqb lim.1.1 (nba_general_position (heap st l))
                        then Some 1 else None
                    | None => None
                    end)
      (general_position_limits self) rows.
Proof.
  intros Hwf. eexists _, _.
  split; [by apply set_general_positions_run|].
  split; [done|]. split; [done|]. split; [done|].
  apply Forall2_fmap_r, Forall_Forall2_diag, Forall_forall.
  intros lim _. eexists. split; [reflexivity|].
  intros v. by apply pool_row_lookup.
Qed.

(** ** Stacks *)

Lemma set_stack_run self st :
  wf self →
  _set_stack self st =
    (Ok tt,
     mkState (heap st)
       (add_constraints
          (stack_row self (heap st) <$> default [] (stacks (settings self)))
          (solver st))).
Proof.
  intros Hwf. unfold _set_stack.
  destruct (truthy_list (stacks (settings self))) eqn:Ht.
  - rewrite (append_loop _ _ (λ s, [stack_row self (heap st) s]) (heap st));
      [by rewrite concat_singletons | done |].
    intros stack st' _ Hh.
    rewrite (pool_row_loop self (λ p, String.eqb (stack_team stack) (team p)));
      [by rewrite Hh|done|].
    intros i l st'' Hin Hh''. mstep. rewrite Hh'', Hh.
    destruct (String.eqb (stack_team stack) (team (heap st l))); [|done].
    by rewrite (wf_variable self i l Hwf Hin).
  - destruct (stacks (settings self)) as [[|s ss]|]; try done;
      cbn; by rewrite add_constraints_nil, State_eta.
Qed.

(** X3: [_set_stack] succeeds and appends one row per configured stack, in
    order, bounded by (count, count), with coefficient 1 exactly on the pool
    players of the stack's team; with no stacks ([None] or an empty list)
    it changes nothing.  A stack on a team without pool players gets a row
    without coefficients. *)
Theorem stack_rows (self : Optimizer) (st : State) :
  wf self →
  ∃ st' rows,
    _set_stack self st = (Ok tt, st') ∧
    heap st' = heap st ∧
    solver_vars (solver st') = solver_vars (solver st) ∧
    solver_constraints (solver st') = solver_constraints (solver st) ++ rows ∧
    (truthy_list (stacks (settings self)) = false → rows = []) ∧
    Forall2
      (λ stack row,
         ∃ co, row = Row [Some (stack_count stack); Some (stack_count stack)] co ∧
               ∀ v, co !! v =
                    match players self !! v with
                    | Some l =>
                        if String.eqb (stack_team stack) (team (heap st l))
                        then Some 1 else None
                    | None => None
                    end)
      (default [] (stacks (settings self))) rows.
Proof.
  intros Hwf. eexists _, _.
  split; [by apply set_stack_run|].
  split; [done|]. split; [done|]. split; [done|]. split.
  - by destruct (stacks (settings self)) as [[|s ss]|].
  - apply Forall2_fmap_r, Forall_Forall2_diag, Forall_forall.
    intros stack _. eexists. split; [reflexivity|].
    intros v. by apply pool_row_lookup.
Qed.

(** ** Salary range and roster size *)

Lemma omap_Some_fmap {A B} (f : A → B) (l : list A) :
  omap (λ x, Some (f x)) l = f <$> l.
Proof. induction l as [|x l IH]; [done|]. cbn. by rewrite IH. Qed.

Lemma enumerate_from_fst {A} (l : list A) k :
  (enumerate_from k l).*1 = seq k (length l).
Proof. revert k. induction l as [|x l IH]; intros k; [done|]. cbn. by rewrite IH. Qed.

Lemma set_salary_range_run self st :
  wf self →
  _set_salary_range self st =
    (Ok tt,
     mkState (heap st)
       (add_constraints
          [Row [Some (salary_min self); Some (salary_max self)]
             (set_coeffs ((λ ip : nat * loc, (ip.1, cost (heap st ip.2)))
                            <$> enumerated_players self) ∅)]
          (solver st))).
Proof.
  intros Hwf. unfold _set_salary_range. rewrite Constraint_then.
  rewrite (fill_loop _ _
             (λ ip : nat * loc, Some (ip.1, cost (heap st ip.2)))
             (solver_constraints (solver st))
             [Some (salary_min self); Some (salary_max self)] (heap st) ∅).
  - cbn [solver]. rewrite omap_Some_fmap. by rewrite with_constraints_added.
  - done.
  - reflexivity.
  - intros [i l] st' Hin Hh. rewrite bind_run, (wf_variable self i l Hwf Hin).
    mstep. by rewrite Hh.
Qed.

(** X4: [_set_salary_range] succeeds and appends exactly one row, bounded
    by (salary_min, salary_max), whose coefficient on each pool player's
    variable is that player's cost, and which has no other coefficient. *)
Theorem salary_row (self : Optimizer) (st : State) :
  wf self →
  ∃ st' co,
    _set_salary_range self st = (Ok tt, st') ∧
    heap st' = heap st ∧
    solver_vars (solver st') = solver_vars (solver st) ∧
    solver_constraints (solver st') =
      solver_constraints (solver st) ++
      [Row [Some (salary_min self); Some (salary_max self)] co] ∧
    ∀ v, co !! v = (λ l, cost (heap st l)) <$> players self !! v.
Proof.
  intros Hwf. eexists _, _.
  split; [by apply set_salary_range_run|].
  split; [done|]. split; [done|]. split; [done|].
  intros v. destruct Hwf as (He & _). rewrite He.
  destruct (players self !! v) as [l|] eqn:Hl; cbn.
  - apply set_coeffs_lookup_in.
    + rewrite <- list_fmap_compose. unfold enumerate.
      change (fst ∘ _) with (@fst nat loc).
      rewrite enumerate_from_fst. apply NoDup_seq.
    + apply list_elem_of_fmap. exists (v, l). split; [done|].
      by apply elem_of_enumerate.
  - rewrite set_coeffs_lookup_notin; [done|].
    rewrite <- list_fmap_compose. unfold enumerate.
    change (fst ∘ _) with (@fst nat loc).
    rewrite enumerate_from_fst, elem_of_seq.
    apply lookup_ge_None in Hl. lia.
Qed.

(** X5: [_set_roster_size] succeeds and appends exactly one row, the
    equality (roster_size, roster_size), with coefficient 1 on every
    variable of the pool and on nothing else. *)
Theorem roster_size_row (self : Optimizer) (st : State) :
  wf self →
  ∃ st' co,
    _set_roster_size self st = (Ok tt, st') ∧
    heap st' = heap st ∧
    solver_vars (solver st') = solver_vars (solver st) ∧
    solver_constraints (solver st') =
      solver_constraints (solver st) ++
      [Row [Some (roster_size self); Some (roster_size self)] co] ∧
    ∀ v, co !! v = if decide (v < length (players self))%nat then Some 1 else None.
Proof.
  intros Hwf. exists (_set_roster_size self st).2, (set_ones (variables self) ∅).
  assert (Hrun : _set_roster_size self st =
    (Ok tt,
     mkState (heap st)
       (add_constraints
          [Row [Some (roster_size self); Some (roster_size self)]
             (set_ones (variables self) ∅)] (solver st)))).
  { unfold _set_roster_size. rewrite Constraint_then.
    rewrite (fill_ones_loop _ _ (λ v : nat, Some v)
               (solver_constraints (solver st))
               [Some (roster_size self); Some (roster_size self)] (heap st) ∅).
    - cbn [solver]. rewrite omap_Some_fmap, list_fmap_id.
      by rewrite with_constraints_added.
    - done.
    - reflexivity.
    - done. }
  rewrite Hrun. cbn [snd heap solver].
  split; [done|]. split; [done|]. split; [done|]. split; [done|].
  intros v. rewrite set_ones_lookup, lookup_empty.
  destruct Hwf as (_ & -> & _).
  by repeat case_decide; rewrite elem_of_seq in *; try lia.
Qed.

(** ** Objective *)

Lemma optimize_loop self h enum : ∀ st,
  heap st = h →
  (∀ i l, (i, l) ∈ enum → variable self i = ret i) →
  for_each enum
    (λ '(i, l), v <- variable self i ;; player <- read l ;;
                Objective_SetCoefficient v (proj player)) st =
  (Ok tt,
   mkState h
     (with_objective
        (set_objective ((λ ip : nat * loc, (ip.1, proj (h ip.2))) <$> enum)
           (objective_coeffs (solver st)))
        (solver st))).
Proof.
  induction enum as [|[i l] enum IH]; intros st Hh Hv.
  - cbn. unfold with_objective. by rewrite Solver_eta, <- Hh, State_eta.
  - rewrite for_each_cons, bind_run, (Hv i l) by left. mstep.
    rewrite IH; [|done|intros; eapply Hv; by right].
    by rewrite Hh.
Qed.

Lemma set_objective_lookup_notin vcs : ∀ o v,
  v ∉ vcs.*1 → set_objective vcs o !! v = o !! v.
Proof.
  unfold set_objective. induction vcs as [|[a c] vcs IH]; intros o v Hv; [done|].
  cbn in *. apply not_elem_of_cons in Hv as [Hne Hv].
  rewrite IH by done. by rewrite lookup_insert_ne.
Qed.

Lemma set_objective_lookup_in vcs : ∀ o v c,
  NoDup vcs.*1 → (v, c) ∈ vcs → set_objective vcs o !! v = Some c.
Proof.
  unfold set_objective. induction vcs as [|[a c'] vcs IH]; intros o v c Hnd Hin.
  - by apply elem_of_nil in Hin.
  - cbn in *. apply NoDup_cons in Hnd as [Hna Hnd].
    apply elem_of_cons in Hin as [[= -> ->]|Hin].
    + pose proof (set_objective_lookup_notin vcs (<[a := c']> o) a Hna) as E.
      unfold set_objective in E. by rewrite E, lookup_insert_eq.
    + by apply IH.
Qed.

(** X6: [_optimize_on_projected_points] succeeds, adds no variable and no
    constraint, and sets the objective coefficient of each pool player's
    variable to that player's projection; coefficients of other variables
    are left as they were. *)
Theorem objective_coefficients (self : Optimizer) (st : State) :
  wf self →
  ∃ st',
    _optimize_on_projected_points self st = (Ok tt, st') ∧
    heap st' = heap st ∧
    solver_vars (solver st') = solver_vars (solver st) ∧
    solver_constraints (solver st') = solver_constraints (solver st) ∧
    maximization (solver st') = maximization (solver st) ∧
    ∀ v, objective_coeffs (solver st') !! v =
         match players self !! v with
         | Some l => Some (proj (heap st l))
         | None => objective_coeffs (solver st) !! v
         end.
Proof.
  intros Hwf. eexists.
  split.
  { unfold _optimize_on_projected_points.
    apply (optimize_loop self (heap st)); [done|].
    intros i l Hin. by apply (wf_variable self i l). }
  split; [done|]. split; [done|]. split; [done|]. split; [done|].
  intros v. cbn. destruct Hwf as (He & _). rewrite He.
  destruct (players self !! v) as [l|] eqn:Hl.
  - apply set_objective_lookup_in.
    + rewrite <- list_fmap_compose. unfold enumerate.
      change (fst ∘ _) with (@fst nat loc).
      rewrite enumerate_from_fst. apply NoDup_seq.
    + apply list_elem_of_fmap. exists (v, l). split; [done|].
      by apply elem_of_enumerate.
  - rewrite set_objective_lookup_notin; [done|].
    rewrite <- list_fmap_compose. unfold enumerate.
    change (fst ∘ _) with (@fst nat loc).
    rewrite enumerate_from_fst, elem_of_seq.
    apply lookup_ge_None in Hl. lia.
Qed.

(** ** Minimum number of teams *)

Lemma add_vars_nil s : add_vars [] s = s.
Proof. unfold add_vars. rewrite app_nil_r. apply Solver_eta. Qed.


Local Abbreviation min_teams_body self :=
  (λ (teams_ : list nat) team_,
     if truthy_str team_ then
       constraint <- IntVar 0 1 team_ ;;
       let teams_ := teams_ ++ [constraint] in
       players_on_team <-
         comprehension (enumerated_players self)
           (λ '(i, l), p <- read l ;; ret (String.eqb (team p) team_))
           (λ '(i, l), variable self i) ;;
       Add (Le (LVar constraint) (LSum players_on_team)) ;;;
       ret teams_
     else ret teams_).




(** ** Anti-correlation in showdown mode *)

Lemma elem_of_concat {A} (x : A) (ls : list (list A)) :
  x ∈ concat ls ↔ ∃ l, x ∈ l ∧ l ∈ ls.
Proof.
  induction ls as [|l ls IH]; cbn.
  - split; [by intros ?%elem_of_nil | by intros (? & _ & ?%elem_of_nil)].
  - rewrite elem_of_app, IH. split.
    + intros [Hx | (l' & Hx & Hl')]; [exists l | exists l']; split; try done;
        [left | by right].
    + intros (l' & Hx & [-> | Hl']%elem_of_cons); [by left | right; by exists l'].
Qed.

Lemma set_no_opp_defense_run self offs defs st :
  wf self →
  offensive_positions self = Some offs →
  defensive_positions self = Some defs →
  _set_no_opp_defense self st =
    (Ok tt,
     mkState (heap st)
       (add_constraints
          (if (truthy_list (offensive_positions self)
               && truthy_list (defensive_positions self)
               && (no_offense_against_defense (settings self)
                   && negb (showdown self))
               || no_defense_against_captain (settings self) && showdown self)%bool
           then concat (anti_pairs self (heap st) offs defs <$> elements (teams self))
           else [])
          (solver st))).
Proof.
  intros Hwf Hoff Hdef. unfold _set_no_opp_defense.
  match goal with |- context [if ?c then _ else _] => destruct c end;
    [|by cbn; rewrite add_constraints_nil, State_eta].
  apply (append_loop _ _ (anti_pairs self (heap st) offs defs) (heap st)); [done|].
  intros t st' _ Hh. rewrite Hoff, Hdef.
  rewrite bind_run.
  rewrite (comprehension_run _ _ _
             (λ ip : nat * loc,
                (py_in (pos (heap st ip.2)) offs
                 && is_opposing_team_in_match_up (heap st ip.2) t
                 && (no_defense_against_captain (settings self) && showdown self)
                 && captain (heap st ip.2))%bool) fst).
  - rewrite bind_run, (team_vars_run self (λ q, py_in (pos q) defs) t);
      [|done|].
    + fold (offensive_vars self (heap st) offs t). rewrite Hh.
      rewrite (append_loop _ _
                 (λ p, (λ d, Le (LVar p) (LSub (LConst 1) (LVar d)))
                         <$> team_vars self (heap st) (λ q, py_in (pos q) defs) t)
                 (heap st)); [done|done|].
      intros p st'' _ Hh''.
      rewrite (append_loop _ _ (λ d, [Le (LVar p) (LSub (LConst 1) (LVar d))])
                 (heap st)); [by rewrite concat_singletons|done|].
      intros d st3 _ Hh3. by rewrite Add_run, Hh3.
    + intros i l. mstep. by destruct (String.eqb _ _).
  - intros [i l] _. mstep. by rewrite Hh.
  - intros [i l] Hin _. by rewrite (wf_variable self i l Hwf Hin).
Qed.

(** X8: in showdown mode with [no_defense_against_captain] set and both
    position collections given as lists, [_set_no_opp_defense] succeeds and
    adds exactly the constraints [p <= 1 - d] where, for some team [t] of
    the pool, [p] is the variable of a captain-flagged player at an
    offensive position who faces [t] and [d] is the variable of a player of
    [t] at a defensive position.  Offensive players that are not flagged
    captain are never constrained. *)
Theorem showdown_anti_correlation (self : Optimizer) (offs defs : list string)
    (st : State) :
  wf self →
  showdown self = true →
  no_defense_against_captain (settings self) = true →
  offensive_positions self = Some offs →
  defensive_positions self = Some defs →
  ∃ st' added,
    _set_no_opp_defense self st = (Ok tt, st') ∧
    heap st' = heap st ∧
    solver_vars (solver st') = solver_vars (solver st) ∧
    solver_constraints (solver st') = solver_constraints (solver st) ++ added ∧
    ∀ c, c ∈ added ↔
         ∃ t p d lp ld,
           t ∈ teams self ∧
           players self !! p = Some lp ∧ players self !! d = Some ld ∧
           pos (heap st lp) ∈ offs ∧
           is_opposing_team_in_match_up (heap st lp) t = true ∧
           captain (heap st lp) = true ∧
           team (heap st ld) = t ∧ pos (heap st ld) ∈ defs ∧
           c = Le (LVar p) (LSub (LConst 1) (LVar d)).
Proof.
  intros Hwf Hs Ht Hoff Hdef. eexists _, _.
  split; [by apply (set_no_opp_defense_run self offs defs)|].
  rewrite Hs, Ht, orb_true_r. cbn [heap solver add_constraints solver_vars
                                    solver_constraints].
  split; [done|]. split; [done|]. split; [done|].
  intros c. rewrite elem_of_concat. split.
  - intros (cs & Hc & Hcs).
    apply list_elem_of_fmap in Hcs as (t & -> & Ht').
    apply elem_of_elements in Ht'.
    unfold anti_pairs in Hc. apply elem_of_concat in Hc as (ds & Hc & Hds).
    apply list_elem_of_fmap in Hds as (p & -> & Hp).
    apply list_elem_of_fmap in Hc as (d & -> & Hd).
    apply elem_of_team_vars in Hd as (ld & Hld & Htd & Hpd); [|done].
    unfold offensive_vars in Hp.
    apply list_elem_of_fmap in Hp as ([p' lp] & -> & Hp).
    apply list_elem_of_filter in Hp as [Hcond Hin].
    cbn in Hcond. rewrite Hs, Ht in Hcond. cbn in Hcond.
    rewrite andb_true_r in Hcond.
    apply andb_true_iff in Hcond as [Hcond Hcap].
    apply andb_true_iff in Hcond as [Hpo Hopp].
    destruct Hwf as (He & _). rewrite He in Hin.
    apply elem_of_enumerate in Hin.
    exists t, p', d, lp, ld. cbn.
    unfold py_in in Hpo, Hpd. apply bool_decide_eq_true in Hpo, Hpd.
    by repeat (split; [done|]).
  - intros (t & p & d & lp & ld & Ht' & Hp & Hd & Hpo & Hopp & Hcap & Htd & Hpd & ->).
    exists (anti_pairs self (heap st) offs defs t). split.
    + unfold anti_pairs. apply elem_of_concat.
      exists ((λ d, Le (LVar p) (LSub (LConst 1) (LVar d)))
                <$> team_vars self (heap st) (λ q, py_in (pos q) defs) t).
      split.
      * apply list_elem_of_fmap. exists d. split; [done|].
        apply elem_of_team_vars; [done|]. exists ld.
        split; [done|]. split; [done|]. by apply bool_decide_eq_true_2.
      * apply list_elem_of_fmap. exists p. split; [done|].
        unfold offensive_vars. apply list_elem_of_fmap. exists (p, lp).
        split; [done|]. apply list_elem_of_filter. split.
        -- cbn. rewrite Hs, Ht, Hopp, Hcap. cbn.
           rewrite !andb_true_r. by apply bool_decide_eq_true_2.
        -- destruct Hwf as (He & _). rewrite He. by apply elem_of_enumerate.
    + apply list_elem_of_fmap. exists t. split; [done|]. by apply elem_of_elements.
Qed.

(** ** Groups that name unknown players *)

Local Abbreviation group_body self :=
  (λ group_constraint : GroupConstraint,
     let '(lb, ub) :=
       if truthy (gc_exact group_constraint)
       then (gc_exact group_constraint, gc_exact group_constraint)
       else (gc_lb group_constraint, gc_ub group_constraint) in
     constraint <- Constraint [lb; ub] ;;
     for_each (gc_players group_constraint)
       (λ nm,
          idx <- name_idx self nm ;;
          v <- variable self idx ;;
          SetCoefficient constraint v 1)).




(** ** Inconsistent flags at solving time *)

Lemma for_fold_app {A S} (l1 l2 : list A) (body : S → A → M S) s st :
  for_fold (l1 ++ l2) body s st =
  match for_fold l1 body s st with
  | (Ok s', st') => for_fold l2 body s' st'
  | (Raised e, st') => (Raised e, st')
  end.
Proof.
  revert s st. induction l1 as [|x l1 IH]; intros s st; [done|].
  cbn [app for_fold]. rewrite !bind_run.
  destruct (body s x st) as [[s1|e] st1]; [apply IH | done].
Qed.

Lemma enumerate_from_app {A} (l1 l2 : list A) k :
  enumerate_from k (l1 ++ l2) =
  enumerate_from k l1 ++ enumerate_from (k + length l1) l2.
Proof.
  revert k. induction l1 as [|x l1 IH]; intros k; cbn.
  - by rewrite Nat.add_0_r.
  - rewrite IH. by replace (S k + length l1)%nat with (k + S (length l1))%nat by lia.
Qed.

Lemma player_constraint_raises self mc i l st :
  (lock (heap st l) && ban (heap st l))%bool = true →
  player_constraint self mc (i, l) st = (Raised InvalidBoundsException, st).
Proof.
  intros [Hl Hb]%andb_true_iff. unfold player_constraint. mstep.
  by rewrite Hl, Hb.
Qed.

(** X10: if, when [_set_player_constraints] runs, some pool player has both
    its lock and its ban flag set (the records were changed after
    construction), the call raises [InvalidBoundsException]; it creates no
    variable and changes no player record. *)
Theorem invalid_bounds_raised (self : Optimizer) (st : State) :
  wf self →
  (∃ l, l ∈ players self ∧ (lock (heap st l) && ban (heap st l))%bool = true) →
  (_set_player_constraints self st).1 = Raised InvalidBoundsException ∧
  heap (_set_player_constraints self st).2 = heap st ∧
  solver_vars (solver (_set_player_constraints self st).2) =
    solver_vars (solver st).
Proof.
  intros Hwf Hex.
  destruct (first_conflict_split
              (λ l, (lock (heap st l) && ban (heap st l))%bool) (players self) Hex)
    as (pre & l1 & post & Hps & Hpre & H1).
  unfold _set_player_constraints. rewrite bind_run.
  pose proof Hwf as (He & _). rewrite He, Hps. unfold enumerate.
  rewrite enumerate_from_app, for_fold_app. cbn [enumerate_from].
  rewrite (player_constraints_loop self (heap st)); [|done|].
  - cbn [for_fold]. rewrite bind_run, player_constraint_raises by done. done.
  - intros i l Hin. split.
    + apply (wf_variable self i l Hwf). rewrite He, Hps. unfold enumerate.
      rewrite enumerate_from_app. apply elem_of_app. by left.
    + apply Hpre. apply elem_of_enumerate_from in Hin as [_ Hin].
      by eapply list_elem_of_lookup_2.
Qed.

(** ** Pools without shared rows *)

Lemma bound_step_unshared self h enum : ∀ mc cs,
  (∀ ip, ip ∈ enum → shares_constraint self (h ip.2) = false) →
  foldl (bound_step self h) (mc, cs) enum =
    (mc, cs ++ ((λ ip : nat * loc, bound_row ip.1 (h ip.2)) <$> enum)).
Proof.
  induction enum as [|ip enum IH]; intros mc cs Hall.
  - cbn. by rewrite app_nil_r.
  - cbn [foldl]. unfold bound_step at 2. rewrite Hall by left. cbn [fst snd].
    rewrite IH by (intros; apply Hall; by right).
    cbn. by rewrite <- app_assoc.
Qed.

Lemma fmap_enumerate_from {A B} (f : nat * A → B) (l : list A) : ∀ k,
  f <$> enumerate_from k l = imap (λ i x, f ((k + i)%nat, x)) l.
Proof.
  induction l as [|x l IH]; intros k; [done|].
  cbn. rewrite Nat.add_0_r. f_equal. rewrite IH.
  apply imap_ext. intros i y _. cbn. do 2 f_equal. lia.
Qed.

(** X11: on a pool in which no player is multi-position and, in showdown
    mode, none is flagged captain, and whose players have consistent flags,
    [_set_player_constraints] appends exactly one row per player, in pool
    order: the row of player [i] is bounded by (1 if locked else 0,
    0 if banned else 1) and carries variable [i] alone. *)
Theorem one_row_per_player (self : Optimizer) (st : State) :
  wf self →
  (∀ l, l ∈ players self → (lock (heap st l) && ban (heap st l))%bool = false) →
  (∀ l, l ∈ players self → shares_constraint self (heap st l) = false) →
  _set_player_constraints self st =
    (Ok tt,
     mkState (heap st)
       (add_constraints
          (imap (λ i l, Row [Some (if lock (heap st l) then 1 else 0);
                             Some (if ban (heap st l) then 0 else 1)]
                            {[ i := 1 ]})
             (players self))
          (solver st))).
Proof.
  intros Hwf Hflags Hsh. unfold _set_player_constraints.
  rewrite bind_run, (player_constraints_loop self (heap st)); [|done|].
  - rewrite bound_step_unshared.
    + cbn. unfold with_constraints, add_constraints. do 3 f_equal.
      destruct Hwf as (-> & _). unfold enumerate.
      by rewrite fmap_enumerate_from.
    + intros [i l] Hin. by eapply Hsh, wf_player.
  - intros i l Hin. split; [by eapply wf_variable|].
    by eapply Hflags, wf_player.
Qed.

(** ** The captain row *)


(** ** The registry the constructor builds *)

Lemma index_map_ext key h1 h2 enum : ∀ m,
  (∀ ip, ip ∈ enum → key (h1 ip.2) = key (h2 ip.2)) →
  index_map key h1 enum m = index_map key h2 enum m.
Proof.
  unfold index_map. induction enum as [|ip enum IH]; intros m Hk; [done|].
  cbn. rewrite Hk by left. apply IH. intros; apply Hk; by right.
Qed.

Lemma index_map_snoc key h enum ip m :
  index_map key h (enum ++ [ip]) m =
  <[key (h ip.2) := ip.1]> (index_map key h enum m).
Proof. unfold index_map. by rewrite foldl_app. Qed.

(** A key is mapped to the last index that carries it. *)
Lemma index_map_lookup key h ps s i :
  index_map key h (enumerate ps) ∅ !! s = Some i ↔
  ∃ l, ps !! i = Some l ∧ key (h l) = s ∧
       ∀ j l', (i < j)%nat → ps !! j = Some l' → key (h l') ≠ s.
Proof.
  revert i. induction ps as [|x ps IH] using rev_ind; intros i.
  - cbn. rewrite lookup_empty. split; [done | by intros (? & ? & _)].
  - unfold enumerate. rewrite enumerate_from_app. cbn [enumerate_from].
    rewrite index_map_snoc. cbn [fst snd]. rewrite Nat.add_0_l.
    destruct (decide (key (h x) = s)) as [Hs|Hs].
    + rewrite Hs, lookup_insert_eq. split.
      * intros [= <-]. exists x. split; [by rewrite lookup_app_r, Nat.sub_diag|].
        split; [done|]. intros j l' Hj Hl'.
        apply lookup_lt_Some in Hl'. rewrite length_app in Hl'. cbn in Hl'. lia.
      * intros (l & Hl & _ & Hlast).
        destruct (decide (i = length ps)) as [->|Hne]; [done|].
        exfalso. apply (Hlast (length ps) x); [|by rewrite lookup_app_r, Nat.sub_diag|done].
        apply lookup_lt_Some in Hl. rewrite length_app in Hl. cbn in Hl. lia.
    + rewrite lookup_insert_ne by done. fold (enumerate ps). rewrite IH. split.
      * intros (l & Hl & Hk & Hlast). exists l.
        split; [by apply lookup_app_l_Some|]. split; [done|].
        intros j l' Hj Hl'.
        destruct (decide (j < length ps)%nat) as [Hlt|Hge].
        -- rewrite lookup_app_l in Hl' by done. by eapply Hlast.
        -- rewrite lookup_app_r in Hl' by lia.
           destruct (j - length ps)%nat; [|done]. by injection Hl' as <-.
      * intros (l & Hl & Hk & Hlast).
        assert (i < length ps)%nat as Hlt.
        { destruct (decide (i < length ps)%nat); [done|].
          rewrite lookup_app_r in Hl by lia.
          destruct (i - length ps)%nat; [|done]. injection Hl as <-. done. }
        rewrite lookup_app_l in Hl by done. exists l.
        split; [done|]. split; [done|].
        intros j l' Hj Hl'. apply (Hlast j l' Hj). by apply lookup_app_l_Some.
Qed.

Section registry_loop.
Context (lc : LineupConstraints) (locked banned : list string).

Lemma init_loop_registry ls : ∀ k vars p2i n2i st,
  (∀ l, l ∈ ls → conflict lc locked banned (heap st l) = false) →
  ∃ st',
    for_fold (enumerate_from k ls) (init_player lc locked banned)
      (vars, p2i, n2i) st =
      (Ok (vars ++ seq (length (solver_vars (solver st))) (length ls),
           index_map solver_id (heap st) (enumerate_from k ls) p2i,
           index_map name (heap st) (enumerate_from k ls) n2i), st') ∧
    solver st' =
      add_vars ((λ l, mkVar 0 1 (solver_id (heap st l))) <$> ls) (solver st) ∧
    ∀ l, same_but_flags (heap st' l) (heap st l).
Proof.
  induction ls as [|a ls IH]; intros k vars p2i n2i st Hno.
  - exists st. cbn. rewrite app_nil_r, add_vars_nil. by repeat split.
  - cbn [enumerate_from for_fold]. rewrite bind_run.
    destruct (init_player_run lc locked banned vars p2i n2i k a st)
      as (st1 & Hrun & Hheap & Hsolver).
    rewrite Hrun, Hno by left.
    assert (Hsame : ∀ l, same_but_flags (heap st1 l) (heap st l)).
    { intros l. rewrite Hheap. case_decide; subst;
        [apply resolve_same | by repeat split]. }
    destruct (IH (S k) (vars ++ [length (solver_vars (solver st))])
                (<[solver_id (heap st a) := k]> p2i)
                (<[name (heap st a) := k]> n2i) st1)
      as (st' & Hloop & Hs & Hsame').
    { intros l Hl. rewrite Hheap. case_decide; subst.
      - rewrite conflict_resolve. apply Hno; left.
      - apply Hno. by right. }
    exists st'. lazy beta iota. rewrite Hloop, Hs, Hsolver. cbn.
    rewrite length_app, <- app_assoc. cbn. rewrite Nat.add_1_r.
    split; [|split].
    + rewrite (index_map_ext solver_id (heap st1) (heap st)),
        (index_map_ext name (heap st1) (heap st)); [done| |].
      * intros ip _. by destruct (Hsame ip.2) as (? & _).
      * intros ip _. by destruct (Hsame ip.2) as (_ & ? & _).
    + unfold add_vars. cbn. rewrite <- app_assoc. cbn. do 3 f_equal.
      apply list_fmap_ext. intros _ l _. by destruct (Hsame l) as (_ & -> & _).
    + intros l. destruct (Hsame' l) as (H1 & H2 & H3 & H4 & H5 & H6 & H7 & H8 & H9 & H10).
      destruct (Hsame l) as (G1 & G2 & G3 & G4 & G5 & G6 & G7 & G8 & G9 & G10).
      repeat split; congruence.
Qed.

End registry_loop.

Lemma init_run_full ps rule_set stg lc exposure st :
  (∀ l, l ∈ ps →
        conflict lc (exposure_locked exposure) (exposure_banned exposure)
          (heap st l) = false) →
  ∃ self st',
    init ps rule_set stg lc exposure st = (Ok self, st') ∧
    player_to_idx_map self = index_map solver_id (heap st) (enumerate ps) ∅ ∧
    name_to_idx_map self = index_map name (heap st) (enumerate ps) ∅ ∧
    teams self = list_to_set ((λ l, team (heap st l)) <$> ps) ∧
    solver st' =
      mkSolver ((λ l, mkVar 0 1 (solver_id (heap st l))) <$> ps) [] ∅ true.
Proof.
  intros Hno. unfold init. rewrite bind_run. cbn [modify_solver]. rewrite bind_run.
  set (st0 := mkState (heap st) ((λ _, Solver_new) (solver st))).
  destruct (init_loop_registry lc (exposure_locked exposure)
              (exposure_banned exposure) ps 0 [] ∅ ∅ st0 Hno)
    as (st1 & Hloop & Hs & Hsame).
  unfold exposure_locked, exposure_banned, enumerate in *.
  rewrite Hloop. rewrite bind_run, player_teams_run.
  eexists _, _. split; [reflexivity|]. cbn.
  split; [done|]. split; [done|]. split.
  - f_equal. apply list_fmap_ext. intros _ l _.
    by destruct (Hsame l) as (_ & _ & ? & _).
  - by rewrite Hs.
Qed.

(** X13: a successful construction leaves a fresh model, whatever solver
    the state held before: one 0/1 variable per pool player, in pool order
    and named by the player's solver id, no constraint, an empty objective
    marked for maximization.  [self.variables] holds these variables in
    order, and [self.teams] is the set of the team names of the pool. *)
Theorem construction_registers_pool (ps : list loc) (rule_set : RuleSet)
    (stg : option OptimizerSettings) (lc : LineupConstraints)
    (exposure : option ExposureDct) (st : State) (self : Optimizer)
    (st' : State) :
  init ps rule_set stg lc exposure st = (Ok self, st') →
  solver st' =
    mkSolver ((λ l, mkVar 0 1 (solver_id (heap st l))) <$> ps) [] ∅ true ∧
  players self = ps ∧
  variables self = seq 0 (length ps) ∧
  (∀ i l, ps !! i = Some l →
          variables self !! i = Some i ∧
          solver_vars (solver st') !! i = Some (mkVar 0 1 (solver_id (heap st l)))) ∧
  (∀ t, t ∈ teams self ↔ ∃ l, l ∈ ps ∧ team (heap st l) = t).
Proof.
  intros Hinit.
  pose proof (init_ok_inv ps rule_set stg lc exposure st self st' Hinit) as Hno.
  destruct (init_run_full ps rule_set stg lc exposure st Hno)
    as (self' & st'' & Hr & _ & _ & Hteams & Hsolver).
  destruct (init_flags_consistent _ _ _ _ _ _ _ _ Hinit) as ((_ & Hv & _) & Hps & _).
  rewrite Hinit in Hr. injection Hr as <- <-.
  rewrite Hps in Hv.
  split; [done|]. split; [done|]. split; [done|]. split.
  - intros i l Hil. rewrite Hv, Hsolver. cbn. split.
    + apply lookup_seq. split; [done|]. by eapply lookup_lt_Some.
    + by rewrite list_lookup_fmap, Hil.
  - intros t. rewrite Hteams, elem_of_list_to_set, list_elem_of_fmap.
    split; [intros (l & -> & Hl) | intros (l & Hl & <-)]; by exists l.
Qed.

(** X14: after a successful construction [name_to_idx_map] maps a name to
    the index of the last pool player of that name, and
    [player_to_idx_map] maps a solver id to the index of the last pool
    player with that id; a name or id no pool player has is not a key.
    When two records share a name, as the captain and utility records of
    one player do, the earlier one is not reachable by name. *)
Theorem lookup_tables_last_wins (ps : list loc) (rule_set : RuleSet)
    (stg : option OptimizerSettings) (lc : LineupConstraints)
    (exposure : option ExposureDct) (st : State) (self : Optimizer)
    (st' : State) :
  init ps rule_set stg lc exposure st = (Ok self, st') →
  (∀ nm i, name_to_idx_map self !! nm = Some i ↔
           ∃ l, ps !! i = Some l ∧ name (heap st l) = nm ∧
                ∀ j l', (i < j)%nat → ps !! j = Some l' → name (heap st l') ≠ nm) ∧
  (∀ sid i, player_to_idx_map self !! sid = Some i ↔
            ∃ l, ps !! i = Some l ∧ solver_id (heap st l) = sid ∧
                 ∀ j l', (i < j)%nat → ps !! j = Some l' →
                         solver_id (heap st l') ≠ sid) ∧
  (∀ nm, name_to_idx_map self !! nm = None ↔
         ∀ l, l ∈ ps → name (heap st l) ≠ nm).
Proof.
  intros Hinit.
  pose proof (init_ok_inv ps rule_set stg lc exposure st self st' Hinit) as Hno.
  destruct (init_run_full ps rule_set stg lc exposure st Hno)
    as (self' & st'' & Hr & Hp2i & Hn2i & _).
  rewrite Hinit in Hr. injection Hr as <- <-.
  split; [|split].
  - intros nm i. rewrite Hn2i. apply index_map_lookup.
  - intros sid i. rewrite Hp2i. apply index_map_lookup.
  - intros nm. rewrite Hn2i. split.
    + intros Hnone l Hl Hnm.
      apply list_elem_of_lookup in Hl as [i Hi].
      assert (∃ i l, ps !! i = Some l ∧ name (heap st l) = nm) as Hex by eauto.
      clear i l Hi Hnm.
      assert (Hlast : ∃ i l, ps !! i = Some l ∧ name (heap st l) = nm ∧
                ∀ j l', (i < j)%nat → ps !! j = Some l' → name (heap st l') ≠ nm).
      { clear Hnone Hn2i Hp2i Hinit Hno.
        induction ps as [|x ps' IH] using rev_ind.
        - by destruct Hex as (? & ? & ? & _).
        - destruct (decide (name (heap st x) = nm)) as [Hx|Hx].
          + exists (length ps'), x. split; [by rewrite lookup_app_r, Nat.sub_diag|].
            split; [done|]. intros j l' Hj Hl'.
            apply lookup_lt_Some in Hl'. rewrite length_app in Hl'. cbn in Hl'. lia.
          + destruct IH as (i & l & Hi & Hn & Hlast).
            { destruct Hex as (i & l & Hi & Hn).
              destruct (decide (i < length ps')%nat).
              - exists i, l. by rewrite lookup_app_l in Hi.
              - rewrite lookup_app_r in Hi by lia.
                destruct (i - length ps')%nat; [|done]. injection Hi as <-. done. }
            exists i, l. split; [by apply lookup_app_l_Some|]. split; [done|].
            intros j l' Hj Hl'.
            destruct (decide (j < length ps')%nat).
            * rewrite lookup_app_l in Hl' by done. by eapply Hlast.
            * rewrite lookup_app_r in Hl' by lia.
              destruct (j - length ps')%nat; [|done]. by injection Hl' as <-. }
      destruct Hlast as (i & l & Hlast).
      assert (index_map name (heap st) (enumerate ps) ∅ !! nm = Some i) as E
        by (apply index_map_lookup; eauto).
      congruence.
    + intros Hnone.
      destruct (index_map name (heap st) (enumerate ps) ∅ !! nm) as [i|] eqn:E;
        [|done].
      apply index_map_lookup in E as (l & Hl & Hn & _).
      exfalso. apply (Hnone l); [|done]. by eapply list_elem_of_lookup_2.
Qed.

(** ** A failed construction *)

Section failed_construction.
Context (lc : LineupConstraints) (locked banned : list string).

Lemma init_loop_raises_state pre l1 post : ∀ k reg st,
  (∀ l, l ∈ pre → conflict lc locked banned (heap st l) = false) →
  conflict lc locked banned (heap st l1) = true →
  ∃ st',
    for_fold (enumerate_from k (pre ++ l1 :: post))
      (init_player lc locked banned) reg st =
      (Raised (PlayerBanAndLockException (name (heap st l1))), st') ∧
    (∀ l, heap st' l =
          if decide (l ∈ pre ++ [l1]) then resolve lc locked banned (heap st l)
          else heap st l) ∧
    solver st' =
      add_vars ((λ l, mkVar 0 1 (solver_id (heap st l))) <$> pre ++ [l1])
        (solver st).
Proof.
  induction pre as [|a pre IH]; intros k [[vars p2i] n2i] st Hno Hc.
  - cbn [app enumerate_from for_fold]. rewrite bind_run.
    destruct (init_player_run lc locked banned vars p2i n2i k l1 st)
      as (st1 & Hrun & Hheap & Hsolver).
    rewrite Hrun, Hc. exists st1. split; [done|]. split; [|done].
    intros l. rewrite Hheap. repeat case_decide; subst; try done; set_solver.
  - rewrite <- !app_comm_cons. cbn [enumerate_from for_fold]. rewrite bind_run.
    destruct (init_player_run lc locked banned vars p2i n2i k a st)
      as (st1 & Hrun & Hheap & Hsolver).
    rewrite Hrun, Hno by left.
    destruct (IH (S k) (vars ++ [length (solver_vars (solver st))],
                        <[solver_id (heap st a) := k]> p2i,
                        <[name (heap st a) := k]> n2i) st1)
      as (st' & Hloop & Hh & Hs).
    { intros l Hl. rewrite Hheap. case_decide; subst.
      - rewrite conflict_resolve. apply Hno; left.
      - apply Hno. by right. }
    { rewrite Hheap. case_decide; subst; [|done]. by rewrite conflict_resolve. }
    assert (Hsid : ∀ l, solver_id (heap st1 l) = solver_id (heap st l)).
    { intros l. rewrite Hheap. case_decide; subst; [|done].
      by destruct (resolve_same lc locked banned (heap st a)) as (_ & ? & _). }
    assert (Hnm : name (heap st1 l1) = name (heap st l1)).
    { rewrite Hheap. case_decide; subst; [|done].
      by destruct (resolve_same lc locked banned (heap st a)) as (? & _). }
    exists st'. lazy beta iota. rewrite Hloop, Hnm. split; [done|]. split.
    + intros l. rewrite Hh, !Hheap.
      repeat case_decide; subst; rewrite ?resolve_idem; try done; set_solver.
    + rewrite Hs, Hsolver. unfold add_vars. cbn. rewrite <- app_assoc. cbn.
      do 3 f_equal. apply list_fmap_ext. intros _ l _. by rewrite Hsid.
Qed.

End failed_construction.

(** X15: a failed construction is not undone.  When construction raises
    [PlayerBanAndLockException] at the first conflicting player, the
    records of the players before it and of that player itself keep the
    flags the constructor raised on them, the records after it are
    untouched, and the solver holds variables for the players visited and
    nothing else. *)
Theorem failed_construction_keeps_flags (ps : list loc) (rule_set : RuleSet)
    (stg : option OptimizerSettings) (lc : LineupConstraints)
    (exposure : option ExposureDct) (st : State)
    (pre post : list loc) (l1 : loc) :
  ps = pre ++ l1 :: post →
  (∀ l, l ∈ pre →
        conflict lc (exposure_locked exposure) (exposure_banned exposure)
          (heap st l) = false) →
  conflict lc (exposure_locked exposure) (exposure_banned exposure)
    (heap st l1) = true →
  ∃ st',
    init ps rule_set stg lc exposure st =
      (Raised (PlayerBanAndLockException (name (heap st l1))), st') ∧
    (∀ l, l ∈ pre ++ [l1] →
          lock (heap st' l) = _is_locked lc (exposure_locked exposure) (heap st l) ∧
          ban (heap st' l) = _is_banned lc (exposure_banned exposure) (heap st l)) ∧
    (∀ l, l ∉ pre ++ [l1] → heap st' l = heap st l) ∧
    solver st' =
      mkSolver ((λ l, mkVar 0 1 (solver_id (heap st l))) <$> pre ++ [l1])
        [] ∅ false.
Proof.
  intros Hps Hno Hc. unfold init. rewrite bind_run. cbn [modify_solver].
  rewrite bind_run.
  set (st0 := mkState (heap st) ((λ _, Solver_new) (solver st))).
  destruct (init_loop_raises_state lc (exposure_locked exposure)
              (exposure_banned exposure) pre l1 post 0 ([], ∅, ∅) st0 Hno Hc)
    as (st' & Hloop & Hh & Hs).
  unfold exposure_locked, exposure_banned, enumerate in *.
  rewrite Hps, Hloop. exists st'. split; [done|]. split; [|split].
  - intros l Hl. rewrite Hh, decide_True by done.
    by rewrite lock_resolve, ban_resolve.
  - intros l Hl. by rewrite Hh, decide_False.
  - by rewrite Hs.
Qed.

(** X16: flags raised by one construction outlive it.  If a construction
    succeeded and a pool player resolved to locked in it, then after any
    later construction on the same records, whatever its pool, lineup
    constraints and exposure, and whether it succeeds or not, the record
    still has its lock flag set, so the lower bound
    [_set_player_constraints] computes from it is 1.  The same holds for
    bans and the upper bound 0. *)
Theorem resolved_flags_persist (ps : list loc) (rule_set : RuleSet)
    (stg : option OptimizerSettings) (lc : LineupConstraints)
    (exposure : option ExposureDct) (st : State) (self : Optimizer)
    (st1 : State)
    (ps2 : list loc) (rule_set2 : RuleSet) (stg2 : option OptimizerSettings)
    (lc2 : LineupConstraints) (exposure2 : option ExposureDct) (l : loc) :
  init ps rule_set stg lc exposure st = (Ok self, st1) →
  l ∈ ps →
  (_is_locked lc (exposure_locked exposure) (heap st l) = true →
   lock (heap (init ps2 rule_set2 stg2 lc2 exposure2 st1).2 l) = true ∧
   lower_bound (heap (init ps2 rule_set2 stg2 lc2 exposure2 st1).2 l) = 1) ∧
  (_is_banned lc (exposure_banned exposure) (heap st l) = true →
   ban (heap (init ps2 rule_set2 stg2 lc2 exposure2 st1).2 l) = true ∧
   upper_bound (heap (init ps2 rule_set2 stg2 lc2 exposure2 st1).2 l) = 0).
Proof.
  intros Hinit Hl.
  destruct (init_flags_consistent _ _ _ _ _ _ _ _ Hinit) as (_ & _ & Hfl).
  destruct (Hfl l Hl) as (Hlk & Hbn & _ & _).
  destruct (init_frame ps2 rule_set2 stg2 lc2 exposure2 st1) as [_ Hh].
  cbn zeta in Hh. destruct (Hh l) as [_ Hcase].
  unfold lower_bound, upper_bound. split.
  - intros Ht. rewrite Ht in Hlk.
    assert (lock (heap (init ps2 rule_set2 stg2 lc2 exposure2 st1).2 l) = true) as E.
    { destruct Hcase as [-> | ->]; [done|].
      rewrite lock_resolve. unfold _is_locked. rewrite Hlk.
      by destruct (is_locked lc2 _), (py_in _ _). }
    by rewrite E.
  - intros Ht. rewrite Ht in Hbn.
    assert (ban (heap (init ps2 rule_set2 stg2 lc2 exposure2 st1).2 l) = true) as E.
    { destruct Hcase as [-> | ->]; [done|].
      rewrite ban_resolve. unfold _is_banned. rewrite Hbn.
      by destruct (is_banned lc2 _), (py_in _ _). }
    by rewrite E.
Qed.

(** ** The whole of [solve] *)







(** * Instances of the further properties *)

Lemma position_quota_rows_witness :
  ∃ st' rows,
    _set_positions (constructed quota_run) quota_run.2 = (Ok tt, st') ∧
    heap st' = heap quota_run.2 ∧
    solver_vars (solver st') = solver_vars (solver quota_run.2) ∧
    solver_constraints (solver st') = solver_constraints (solver quota_run.2) ++ rows ∧
    Forall2
      (λ (lim : string * Z * Z) row,
         ∃ co, row = Row [Some lim.1.2; Some lim.2] co ∧
               ∀ v, co !! v =
                    match players (constructed quota_run) !! v with
                    | Some l =>
                        if String.eqb lim.1.1 (pos (heap quota_run.2 l))
                        then Some 1 else None
                    | None => None
                    end)
      (position_limits (constructed quota_run)) rows.
Proof.
  apply (position_quota_rows (constructed quota_run) quota_run.2).
  - unfold wf. compute_done.
Defined.

Lemma general_position_quota_rows_witness :
  ∃ st' rows,
    _set_general_positions (constructed quota_run) quota_run.2 = (Ok tt, st') ∧
    heap st' = heap quota_run.2 ∧
    solver_vars (solver st') = solver_vars (solver quota_run.2) ∧
    solver_constraints (solver st') = solver_constraints (solver quota_run.2) ++ rows ∧
    Forall2
      (λ (lim : string * Z * Z) row,
         ∃ co, row = Row [Some lim.1.2; Some lim.2] co ∧
               ∀ v, co !! v =
                    match players (constructed quota_run) !! v with
                    | Some l =>
                        if String.eqb lim.1.1 (nba_general_position (heap quota_run.2 l))
                        then Some 1 else None
                    | None => None
                    end)
      (general_position_limits (constructed quota_run)) rows.
Proof.
  apply (general_position_quota_rows (constructed quota_run) quota_run.2).
  - unfold wf. compute_done.
Defined.

Lemma stack_rows_witness :
  ∃ st' rows,
    _set_stack (constructed quota_run) quota_run.2 = (Ok tt, st') ∧
    heap st' = heap quota_run.2 ∧
    solver_vars (solver st') = solver_vars (solver quota_run.2) ∧
    solver_constraints (solver st') = solver_constraints (solver quota_run.2) ++ rows ∧
    (truthy_list (stacks (settings (constructed quota_run))) = false → rows = []) ∧
    Forall2
      (λ stack row,
         ∃ co, row = Row [Some (stack_count stack); Some (stack_count stack)] co ∧
               ∀ v, co !! v =
                    match players (constructed quota_run) !! v with
                    | Some l =>
                        if String.eqb (stack_team stack) (team (heap quota_run.2 l))
                        then Some 1 else None
                    | None => None
                    end)
      (default [] (stacks (settings (constructed quota_run)))) rows.
Proof.
  apply (stack_rows (constructed quota_run) quota_run.2).
  - unfold wf. compute_done.
Defined.

Lemma salary_row_witness :
  ∃ st' co,
    _set_salary_range (constructed quota_run) quota_run.2 = (Ok tt, st') ∧
    heap st' = heap quota_run.2 ∧
    solver_vars (solver st') = solver_vars (solver quota_run.2) ∧
    solver_constraints (solver st') =
      solver_constraints (solver quota_run.2) ++
      [Row [Some (salary_min (constructed quota_run)); Some (salary_max (constructed quota_run))] co] ∧
    ∀ v, co !! v = (λ l, cost (heap quota_run.2 l)) <$> players (constructed quota_run) !! v.
Proof.
  apply (salary_row (constructed quota_run) quota_run.2).
  - unfold wf. compute_done.
Defined.

Lemma roster_size_row_witness :
  ∃ st' co,
    _set_roster_size (constructed quota_run) quota_run.2 = (Ok tt, st') ∧
    heap st' = heap quota_run.2 ∧
    solver_vars (solver st') = solver_vars (solver quota_run.2) ∧
    solver_constraints (solver st') =
      solver_constraints (solver quota_run.2) ++
      [Row [Some (roster_size (constructed quota_run)); Some (roster_size (constructed quota_run))] co] ∧
    ∀ v, co !! v = if decide (v < length (players (constructed quota_run)))%nat then Some 1 else None.
Proof.
  apply (roster_size_row (constructed quota_run) quota_run.2).
  - unfold wf. compute_done.
Defined.

Lemma objective_coefficients_witness :
  ∃ st',
    _optimize_on_projected_points (constructed quota_run) quota_run.2 = (Ok tt, st') ∧
    heap st' = heap quota_run.2 ∧
    solver_vars (solver st') = solver_vars (solver quota_run.2) ∧
    solver_constraints (solver st') = solver_constraints (solver quota_run.2) ∧
    maximization (solver st') = maximization (solver quota_run.2) ∧
    ∀ v, objective_coeffs (solver st') !! v =
         match players (constructed quota_run) !! v with
         | Some l => Some (proj (heap quota_run.2 l))
         | None => objective_coeffs (solver quota_run.2) !! v
         end.
Proof.
  apply (objective_coefficients (constructed quota_run) quota_run.2).
  - unfold wf. compute_done.
Defined.


Lemma showdown_anti_correlation_witness :
  ∃ st' added,
    _set_no_opp_defense (constructed showdown_anti_run) showdown_anti_run.2 = (Ok tt, st') ∧
    heap st' = heap showdown_anti_run.2 ∧
    solver_vars (solver st') = solver_vars (solver showdown_anti_run.2) ∧
    solver_constraints (solver st') = solver_constraints (solver showdown_anti_run.2) ++ added ∧
    ∀ c, c ∈ added ↔
         ∃ t p d lp ld,
           t ∈ teams (constructed showdown_anti_run) ∧
           players (constructed showdown_anti_run) !! p = Some lp ∧ players (constructed showdown_anti_run) !! d = Some ld ∧
           pos (heap showdown_anti_run.2 lp) ∈ ["QB"; "WR"] ∧
           is_opposing_team_in_match_up (heap showdown_anti_run.2 lp) t = true ∧
           captain (heap showdown_anti_run.2 lp) = true ∧
           team (heap showdown_anti_run.2 ld) = t ∧ pos (heap showdown_anti_run.2 ld) ∈ ["DST"] ∧
           c = Le (LVar p) (LSub (LConst 1) (LVar d)).
Proof.
  apply (showdown_anti_correlation (constructed showdown_anti_run) ["QB"; "WR"] ["DST"] showdown_anti_run.2).
  - unfold wf. compute_done.
  - reflexivity.
  - reflexivity.
  - reflexivity.
  - reflexivity.
Defined.


Lemma invalid_bounds_raised_witness :
  (_set_player_constraints (constructed showdown_run) (mkState heap_two_conflicts Solver_new)).1 = Raised InvalidBoundsException ∧
  heap (_set_player_constraints (constructed showdown_run) (mkState heap_two_conflicts Solver_new)).2 = heap (mkState heap_two_conflicts Solver_new) ∧
  solver_vars (solver (_set_player_constraints (constructed showdown_run) (mkState heap_two_conflicts Solver_new)).2) =
    solver_vars (solver (mkState heap_two_conflicts Solver_new)).
Proof.
  apply (invalid_bounds_raised (constructed showdown_run) (mkState heap_two_conflicts Solver_new)).
  - unfold wf. compute_done.
  - exists 0%nat. split; [compute_done | reflexivity].
Defined.

Lemma one_row_per_player_witness :
  _set_player_constraints (constructed quota_run) quota_run.2 =
    (Ok tt,
     mkState (heap quota_run.2)
       (add_constraints
          (imap (λ i l, Row [Some (if lock (heap quota_run.2 l) then 1 else 0);
                             Some (if ban (heap quota_run.2 l) then 0 else 1)]
                            {[ i := 1 ]})
             (players (constructed quota_run)))
          (solver quota_run.2))).
Proof.
  apply (one_row_per_player (constructed quota_run) quota_run.2).
  - unfold wf. compute_done.
  - apply Forall_forall. compute_done.
  - apply Forall_forall. compute_done.
Defined.


Lemma construction_registers_pool_witness :
  solver quota_run.2 =
    mkSolver ((λ l, mkVar 0 1 (solver_id (heap (mkState heap_classic Solver_new) l))) <$> [0; 1; 2]%nat) [] ∅ true ∧
  players (constructed quota_run) = [0; 1; 2]%nat ∧
  variables (constructed quota_run) = seq 0 (length [0; 1; 2]%nat) ∧
  (∀ i l, [0; 1; 2]%nat !! i = Some l →
          variables (constructed quota_run) !! i = Some i ∧
          solver_vars (solver quota_run.2) !! i = Some (mkVar 0 1 (solver_id (heap (mkState heap_classic Solver_new) l)))) ∧
  (∀ t, t ∈ teams (constructed quota_run) ↔ ∃ l, l ∈ [0; 1; 2]%nat ∧ team (heap (mkState heap_classic Solver_new) l) = t).
Proof.
  apply (construction_registers_pool [0; 1; 2]%nat quota_rules (Some settings_stacks) no_lineup_constraints None (mkState heap_classic Solver_new) (constructed quota_run) quota_run.2).
  - reflexivity.
Defined.

Lemma lookup_tables_last_wins_witness :
  (∀ nm i, name_to_idx_map (constructed showdown_run) !! nm = Some i ↔
           ∃ l, [0; 1; 2]%nat !! i = Some l ∧ name (heap (mkState heap_showdown Solver_new) l) = nm ∧
                ∀ j l', (i < j)%nat → [0; 1; 2]%nat !! j = Some l' → name (heap (mkState heap_showdown Solver_new) l') ≠ nm) ∧
  (∀ sid i, player_to_idx_map (constructed showdown_run) !! sid = Some i ↔
            ∃ l, [0; 1; 2]%nat !! i = Some l ∧ solver_id (heap (mkState heap_showdown Solver_new) l) = sid ∧
                 ∀ j l', (i < j)%nat → [0; 1; 2]%nat !! j = Some l' →
                         solver_id (heap (mkState heap_showdown Solver_new) l') ≠ sid) ∧
  (∀ nm, name_to_idx_map (constructed showdown_run) !! nm = None ↔
         ∀ l, l ∈ [0; 1; 2]%nat → name (heap (mkState heap_showdown Solver_new) l) ≠ nm).
Proof.
  apply (lookup_tables_last_wins [0; 1; 2]%nat showdown_rules None no_lineup_constraints None (mkState heap_showdown Solver_new) (constructed showdown_run) showdown_run.2).
  - reflexivity.
Defined.

Lemma failed_construction_keeps_flags_witness :
  ∃ st',
    init [0; 1; 2]%nat classic_rules None no_lineup_constraints None (mkState heap_second_conflict Solver_new) =
      (Raised (PlayerBanAndLockException (name (heap (mkState heap_second_conflict Solver_new) 1%nat))), st') ∧
    (∀ l, l ∈ [0%nat] ++ [1%nat] →
          lock (heap st' l) = _is_locked no_lineup_constraints (exposure_locked None) (heap (mkState heap_second_conflict Solver_new) l) ∧
          ban (heap st' l) = _is_banned no_lineup_constraints (exposure_banned None) (heap (mkState heap_second_conflict Solver_new) l)) ∧
    (∀ l, l ∉ [0%nat] ++ [1%nat] → heap st' l = heap (mkState heap_second_conflict Solver_new) l) ∧
    solver st' =
      mkSolver ((λ l, mkVar 0 1 (solver_id (heap (mkState heap_second_conflict Solver_new) l))) <$> [0%nat] ++ [1%nat])
        [] ∅ false.
Proof.
  apply (failed_construction_keeps_flags [0; 1; 2]%nat classic_rules None no_lineup_constraints None (mkState heap_second_conflict Solver_new) [0%nat] [2%nat] 1%nat).
  - reflexivity.
  - apply Forall_forall. compute_done.
  - reflexivity.
Defined.

Lemma resolved_flags_persist_witness :
  (_is_locked no_lineup_constraints (exposure_locked (Some exposure_lock_A)) (heap (mkState heap_plain Solver_new) 0%nat) = true →
   lock (heap (init [0; 1]%nat showdown_rules None no_lineup_constraints None exposure_run.2).2 0%nat) = true ∧
   lower_bound (heap (init [0; 1]%nat showdown_rules None no_lineup_constraints None exposure_run.2).2 0%nat) = 1) ∧
  (_is_banned no_lineup_constraints (exposure_banned (Some exposure_lock_A)) (heap (mkState heap_plain Solver_new) 0%nat) = true →
   ban (heap (init [0; 1]%nat showdown_rules None no_lineup_constraints None exposure_run.2).2 0%nat) = true ∧
   upper_bound (heap (init [0; 1]%nat showdown_rules None no_lineup_constraints None exposure_run.2).2 0%nat) = 0).
Proof.
  apply (resolved_flags_persist [0; 1]%nat classic_rules None no_lineup_constraints (Some exposure_lock_A) (mkState heap_plain Solver_new) (constructed exposure_run) exposure_run.2 [0; 1]%nat showdown_rules None no_lineup_constraints None 0%nat).
  - reflexivity.
  - compute_done.
Defined.

